(** * chewie_ai: the semantic cache and retrieval core, embedded in Rocq

    The development follows the Python sources of [backend/app]:

    - [PyStr]            the [str] operations the code relies on;
    - [Re]               the fragment of [re] used by the classifier;
    - [QueryClassifier]  [services/query_classifier.py];
    - [Scraper]          [GitBookScraper.chunk_content] of [cli/scraper.py];
    - [RAG]              [services/rag_service.py];
    - [Sha256]           [hashlib.sha256] (FIPS 180-4), used for Redis keys;
    - [Cache]            [services/cache_service.py];
    - [Fixtures]         a small concrete store for the examples;
    - [Stats]            [CacheService.get_cache_stats];
    - [Documents]        [RAGService.add_document] and [search_documents];
    - [Ask]              the early refusal of [api/endpoints/ask.py];
    - [PyText]           [str.split], [str.lstrip(chars)] and list slices;
    - [Security]         [core/security.py] and [Settings.api_keys];
    - [Kamino]           the mock pools of [services/kamino_service.py];
    - [LLM]              [services/llm_service.py]: the OpenAI request and
                         the follow-up questions.

    The properties follow, one module of facts per source module, and the
    examples close the file.

    Conventions.  A Python [str] is a Rocq [string] whose characters stand
    for the code points 0..255; [int] is [Z]; Python [float] arithmetic done
    by the classifier is binary64 ([PrimFloat]); the double-precision
    distances computed inside the vector store are the rationals they denote
    ([Q], so NaN, the distance to a zero vector, is outside the model);
    [datetime] values are microseconds since the epoch ([Z]).  A SQL
    statement has its SQL meaning: [ORDER BY distance LIMIT n] yields the
    [n] nearest rows that pass the [WHERE] clause (what an approximate
    ivfflat index scan may leave out is outside the model). *)

From Stdlib Require Import ZArith NArith List String Ascii Bool Lia QArith Lqa.
From Stdlib Require Import Sorting.Sorted Sorting.Permutation.
From Stdlib Require Import Floats.PrimFloat Numbers.Cyclic.Int63.Uint63.
Import ListNotations.

Local Open Scope string_scope.
Local Open Scope Z_scope.

(** ** Python [str] *)

Module PyStr.

(** [str.lower] on one code point below 256: A-Z and the Latin-1 capitals
    (U+00C0..U+00DE without the multiplication sign) move up by 32. *)
Definition lower_char (c : ascii) : ascii :=
  let n := N_of_ascii c in
  if (((65 <=? n) && (n <=? 90))
      || ((192 <=? n) && (n <=? 222) && negb (n =? 215)))%N
  then ascii_of_N (n + 32) else c.

Fixpoint lower (s : string) : string :=
  match s with
  | EmptyString => EmptyString
  | String c s' => String (lower_char c) (lower s')
  end.

(** [str.isspace] on one code point below 256. *)
Definition isspace (c : ascii) : bool :=
  let n := N_of_ascii c in
  (((9 <=? n) && (n <=? 13)) || ((28 <=? n) && (n <=? 32))
   || (n =? 133) || (n =? 160))%N.

Fixpoint lstrip (s : string) : string :=
  match s with
  | EmptyString => EmptyString
  | String c s' => if isspace c then lstrip s' else s
  end.

Fixpoint rstrip (s : string) : string :=
  match s with
  | EmptyString => EmptyString
  | String c s' =>
      match rstrip s' with
      | EmptyString => if isspace c then EmptyString else String c EmptyString
      | r => String c r
      end
  end.

(** [s.strip()] *)
Definition strip (s : string) : string := rstrip (lstrip s).

(** [sub in s] *)
Fixpoint contains (sub s : string) : bool :=
  prefix sub s
  || match s with
     | EmptyString => false
     | String _ s' => contains sub s'
     end.

(** [s.rfind(sub)], counting positions from [i]: the highest index at
    which [sub] starts, or -1. *)
Fixpoint rfind_from (sub s : string) (i : Z) : Z :=
  match s with
  | EmptyString => if prefix sub EmptyString then i else -1
  | String _ s' =>
      let r := rfind_from sub s' (i + 1) in
      if 0 <=? r then r else if prefix sub s then i else -1
  end.

Definition rfind (s sub : string) : Z := rfind_from sub s 0.

Fixpoint take (n : nat) (s : string) : string :=
  match n, s with
  | S n', String c s' => String c (take n' s')
  | _, _ => EmptyString
  end.

Fixpoint drop (n : nat) (s : string) : string :=
  match n, s with
  | S n', String _ s' => drop n' s'
  | _, _ => s
  end.

Definition len (s : string) : Z := Z.of_nat (String.length s).

(** A slice bound is taken from the end when negative and clipped to the
    string. *)
Definition clamp (l i : Z) : Z :=
  if i <? 0 then Z.max (i + l) 0 else Z.min i l.

(** [s[a:b]] *)
Definition slice (s : string) (a b : Z) : string :=
  let lo := clamp (len s) a in
  let hi := clamp (len s) b in
  take (Z.to_nat (hi - lo)) (drop (Z.to_nat lo) s).

(** [s[:b]] *)
Definition slice_to (s : string) (b : Z) : string := slice s 0 b.

(** [s.replace(a, b)] for one-character [a] and [b]. *)
Fixpoint replace_char (a b : ascii) (s : string) : string :=
  match s with
  | EmptyString => EmptyString
  | String c s' =>
      String (if Ascii.eqb c a then b else c) (replace_char a b s')
  end.

(** [s.replace(a, "")] for one-character [a]. *)
Fixpoint remove_char (a : ascii) (s : string) : string :=
  match s with
  | EmptyString => EmptyString
  | String c s' =>
      if Ascii.eqb c a then remove_char a s' else String c (remove_char a s')
  end.

(** [sep.join(parts)] *)
Fixpoint join (sep : string) (parts : list string) : string :=
  match parts with
  | [] => EmptyString
  | [p] => p
  | p :: rest => p ++ sep ++ join sep rest
  end.

(** [s.encode()]: UTF-8, one byte below U+0080 and two bytes above. *)
Fixpoint encode (s : string) : list Z :=
  match s with
  | EmptyString => []
  | String c s' =>
      let n := Z.of_N (N_of_ascii c) in
      if n <? 128 then n :: encode s'
      else Z.lor 192 (Z.shiftr n 6) :: Z.lor 128 (Z.land n 63) :: encode s'
  end.

End PyStr.

(** ** The fragment of [re] used by the classifier

    Patterns are matched the way [re] does it: by backtracking, trying the
    alternatives of [|] from left to right and the repetitions greedily.
    [search] returns the leftmost match. *)

Module Re.
Import PyStr.

Inductive regex : Type :=
| Chr (p : ascii -> bool)
| Eps
| Seq (r1 r2 : regex)
| Alt (r1 r2 : regex)
| Star (r : regex)
| Group (r : regex).

(** [run r s g k]: match [r] at the head of [s], with [g] the text
    captured so far by group 1, and hand what is left to [k]; [None] makes
    the matcher backtrack. *)
Fixpoint run {A : Type} (r : regex) (s : string) (g : option string)
    (k : string -> option string -> option A) : option A :=
  match r with
  | Chr p =>
      match s with
      | String c s' => if p c then k s' g else None
      | EmptyString => None
      end
  | Eps => k s g
  | Seq r1 r2 => run r1 s g (fun s' g' => run r2 s' g' k)
  | Alt r1 r2 =>
      match run r1 s g k with
      | Some x => Some x
      | None => run r2 s g k
      end
  | Star r' =>
      (fix star (n : nat) (s : string) (g : option string) : option A :=
         match n with
         | O => k s g
         | S n' =>
             match run r' s g
                     (fun s' g' =>
                        if (String.length s' <? String.length s)%nat
                        then star n' s' g' else None) with
             | Some x => Some x
             | None => k s g
             end
         end) (String.length s) s g
  | Group r' =>
      run r' s g
        (fun s' _ =>
           k s' (Some (take (String.length s - String.length s') s)))
  end.

(** A match object: [group(0)] and [group(1)]. *)
Record rmatch : Type := { group0 : string; group1 : option string }.

Definition match_at (r : regex) (s : string) : option rmatch :=
  run r s None
    (fun s' g =>
       Some {| group0 := take (String.length s - String.length s') s;
               group1 := g |}).

(** [re.search(r, s)] *)
Fixpoint search (r : regex) (s : string) : option rmatch :=
  match match_at r s with
  | Some m => Some m
  | None =>
      match s with
      | EmptyString => None
      | String _ s' => search r s'
      end
  end.

(** Pattern syntax. *)
Definition chr (c : ascii) : regex := Chr (Ascii.eqb c).
Fixpoint lit (s : string) : regex :=
  match s with
  | EmptyString => Eps
  | String c s' => Seq (chr c) (lit s')
  end.
Definition opt (r : regex) : regex := Alt r Eps.       (* r? *)
Definition plus (r : regex) : regex := Seq r (Star r). (* r+ *)
Fixpoint alts (rs : list regex) (last : regex) : regex :=
  match rs with
  | [] => last
  | r :: rs' => Alt r (alts rs' last)
  end.
(** [\d] and [\s] on code points below 256. *)
Definition digit : regex :=
  Chr (fun c => let n := N_of_ascii c in ((48 <=? n) && (n <=? 57))%N).
Definition space : regex := Chr isspace.

End Re.

(** ** [services/query_classifier.py] *)

Module QueryClassifier.
Import PyStr Re.

(** [models/schemas.py], class [QueryType]: five string constants. *)
Inductive QueryType : Type := EARNINGS | GENERAL | RISK | TECHNICAL | UNKNOWN.

Definition QueryType_value (t : QueryType) : string :=
  match t with
  | EARNINGS => "earnings"
  | GENERAL => "general"
  | RISK => "risk"
  | TECHNICAL => "technical"
  | UNKNOWN => "unknown"
  end.

Definition QueryType_eqb (a b : QueryType) : bool :=
  String.eqb (QueryType_value a) (QueryType_value b).

Definition EARNINGS_KEYWORDS : list string :=
  [ "earn"; "earning"; "earnings"; "yield"; "apr"; "apy"; "return";
    "returns"; "profit"; "income"; "interest"; "reward"; "rewards";
    "make money"; "how much"; "calculate"; "calculator" ].

Definition RISK_KEYWORDS : list string :=
  [ "risk"; "risks"; "risky"; "safe"; "safety"; "secure"; "security";
    "danger"; "dangerous"; "lose"; "loss"; "losses"; "audit"; "audited";
    "hack"; "hacked"; "exploit"; "vulnerability"; "insurance" ].

Definition TECHNICAL_KEYWORDS : list string :=
  [ "how to"; "how do i"; "tutorial"; "guide"; "step"; "steps";
    "deposit"; "withdraw"; "connect"; "wallet"; "transaction";
    "metamask"; "phantom"; "solana"; "blockchain" ].

(** [sub] occurs in [s], and some keyword of [kws] occurs in [query]:
    what [in] and [any] decide. *)
Definition occurs (sub s : string) : Prop :=
  exists pre post, s = pre ++ sub ++ post.

Definition mentions (kws : list string) (query : string) : Prop :=
  exists kw, In kw kws /\ occurs kw query.

(** [any(keyword in query for keyword in kws)] *)
Definition any_keyword (kws : list string) (query : string) : bool :=
  existsb (fun keyword => contains keyword query) kws.

Definition _determine_type (query : string) : QueryType :=
  if any_keyword EARNINGS_KEYWORDS query then EARNINGS
  else if any_keyword RISK_KEYWORDS query then RISK
  else if any_keyword TECHNICAL_KEYWORDS query then TECHNICAL
  else GENERAL.

(** [allez[- ]?usdc] and its three siblings. *)
Definition pool_pattern (a b : string) : regex :=
  Seq (lit a)
      (Seq (opt (Chr (fun c => Ascii.eqb c "-" || Ascii.eqb c " "))) (lit b)).

Definition pool_patterns : list regex :=
  [ pool_pattern "allez" "usdc"; pool_pattern "main" "usdc";
    pool_pattern "jito" "sol"; pool_pattern "usdt" "main" ].

Fixpoint first_pool (patterns : list regex) (query : string)
    : option string :=
  match patterns with
  | [] => None
  | pattern :: rest =>
      match search pattern query with
      | Some m => Some (lower (replace_char " " "-" (group0 m)))
      | None => first_pool rest query
      end
  end.

Definition _extract_pool_id (query : string) : option string :=
  first_pool pool_patterns query.

(** [(\d+(?:,\d{3})*(?:\.\d+)?)] *)
Definition number : regex :=
  Group (Seq (plus digit)
             (Seq (Star (Seq (chr ",") (Seq digit (Seq digit digit))))
                  (opt (Seq (chr ".") (plus digit))))).

Definition amount_patterns : list regex :=
  [ Seq number
        (Seq (Star space)
             (alts [lit "usdc"; lit "usdt"; lit "usd"]
                   (Seq (lit "dollar") (opt (chr "s")))));
    Seq (chr "$") (Seq (Star space) number);
    Seq number (Seq (plus space) (alts [lit "in"; lit "on"] (lit "with"))) ].

(** [if x:] on an optional [str] and on an optional [float]. *)
Definition truthy_str (x : option string) : bool :=
  match x with
  | Some s => negb (String.eqb s "")
  | None => false
  end.

Definition truthy_float (x : option float) : bool :=
  match x with
  | Some f => negb (PrimFloat.eqb f 0%float)
  | None => false
  end.

(** The doubles written [0.1] and [0.4]. *)
Definition tenth : float := 0x1.999999999999ap-4%float.
Definition four_tenths : float := 0x1.999999999999ap-2%float.

(** Python's two-argument [min] keeps its first argument unless the second
    is smaller. *)
Definition fmin (a b : float) : float := if PrimFloat.ltb b a then b else a.

(** [n * x] for an [int] [n] below 2^53. *)
Definition int_times (n : nat) (x : float) : float :=
  PrimFloat.mul (PrimFloat.of_uint63 (Uint63.of_Z (Z.of_nat n))) x.

(** [sum(1 for kw in kws if kw in query)] *)
Definition count_keywords (kws : list string) (query : string) : nat :=
  List.length (filter (fun kw => contains kw query) kws).

(** The classification dictionary. *)
Record Classification : Type := {
  query_type : QueryType;
  pool_id : option string;
  amount : option float;
  currency : option string;
  confidence : float;
  requires_apr : bool
}.

Section WithFloatParser.

(** The builtin [float(s)]; [None] is [ValueError]. *)
Variable py_float : string -> option float.

Fixpoint first_amount (patterns : list regex) (query : string)
    : option float :=
  match patterns with
  | [] => None
  | pattern :: rest =>
      match search pattern query with
      | Some m =>
          let amount_str :=
            remove_char ","
              (match group1 m with Some g => g | None => "" end) in
          match py_float amount_str with
          | Some x => Some x
          | None => first_amount rest query
          end
      | None => first_amount rest query
      end
  end.

Definition _extract_amount (query : string) : option float :=
  first_amount amount_patterns query.

Definition currencies : list string :=
  ["usdc"; "usdt"; "usd"; "sol"; "eth"; "btc"].

(** [str.upper] on the ASCII letters of the vocabulary above. *)
Definition upper_char (c : ascii) : ascii :=
  let n := N_of_ascii c in
  if ((97 <=? n) && (n <=? 122))%N then ascii_of_N (n - 32) else c.

Fixpoint upper (s : string) : string :=
  match s with
  | EmptyString => EmptyString
  | String c s' => String (upper_char c) (upper s')
  end.

Fixpoint first_currency (cs : list string) (query : string)
    : option string :=
  match cs with
  | [] => None
  | currency :: rest =>
      if contains currency query then Some (upper currency)
      else first_currency rest query
  end.

Definition _extract_currency (query : string) : option string :=
  first_currency currencies query.

Definition _calculate_confidence (query : string) (qt : QueryType)
    : float :=
  let confidence := 0.5%float in
  let confidence :=
    if QueryType_eqb qt EARNINGS then
      let matches := count_keywords EARNINGS_KEYWORDS query in
      (confidence + fmin (int_times matches tenth) four_tenths)%float
    else if QueryType_eqb qt RISK then
      let matches := count_keywords RISK_KEYWORDS query in
      (confidence + fmin (int_times matches tenth) four_tenths)%float
    else if QueryType_eqb qt TECHNICAL then
      let matches := count_keywords TECHNICAL_KEYWORDS query in
      (confidence + fmin (int_times matches tenth) four_tenths)%float
    else confidence in
  let confidence :=
    if truthy_str (_extract_pool_id query)
    then (confidence + tenth)%float else confidence in
  let confidence :=
    if truthy_float (_extract_amount query)
    then (confidence + tenth)%float else confidence in
  fmin confidence 1%float.

Definition classify (query : string) (pool : option string)
    : Classification :=
  let query_lower := lower query in
  let qt := _determine_type query_lower in
  let extracted_pool :=
    if truthy_str pool then pool else _extract_pool_id query_lower in
  let extracted_amount := _extract_amount query_lower in
  let extracted_currency := _extract_currency query_lower in
  let conf := _calculate_confidence query_lower qt in
  {| query_type := qt;
     pool_id := extracted_pool;
     amount := extracted_amount;
     currency := extracted_currency;
     confidence := conf;
     requires_apr := QueryType_eqb qt EARNINGS |}.

End WithFloatParser.

End QueryClassifier.

(** ** [cli/scraper.py]: [GitBookScraper.chunk_content] *)

Module Scraper.
Import PyStr.

Definition newline : string := String "010"%char EmptyString.

(** The body of the [while] loop up to [chunks.append]: the chunk cut at
    [start] and the end of its window.  [break_point > chunk_size * 0.5]
    compares an [int] with a [float]; Python does it exactly, and the
    product is exact while [chunk_size] is below 2^53, so the test is
    [chunk_size < 2 * break_point]. *)
Definition chunk_step (content : string) (chunk_size start : Z)
    : string * Z :=
  let end_ := start + chunk_size in
  let chunk := slice content start end_ in
  if end_ <? len content then
    let last_period := rfind chunk "." in
    let last_newline := rfind chunk newline in
    let break_point := Z.max last_period last_newline in
    if chunk_size <? 2 * break_point
    then (slice_to chunk (break_point + 1), start + break_point + 1)
    else (chunk, end_)
  else (chunk, end_).

(** The [while start < len(content)] loop; [None] when [fuel] iterations
    were not enough. *)
Fixpoint chunk_loop (fuel : nat) (content : string)
    (chunk_size overlap start : Z) (chunks : list string)
    : option (list string) :=
  match fuel with
  | O => None
  | S fuel' =>
      if start <? len content then
        let '(chunk, end_) := chunk_step content chunk_size start in
        chunk_loop fuel' content chunk_size overlap (end_ - overlap)
          (chunks ++ [strip chunk])
      else Some chunks
  end.

Definition chunk_content (fuel : nat) (content : string)
    (chunk_size overlap : Z) : option (list string) :=
  if len content <=? chunk_size then Some [content]
  else chunk_loop fuel content chunk_size overlap 0 [].

(** The windows [(start, end)] the loop goes through, in order. *)
Fixpoint chunk_windows (fuel : nat) (content : string)
    (chunk_size overlap start : Z) : option (list (Z * Z)) :=
  match fuel with
  | O => None
  | S fuel' =>
      if start <? len content then
        let end_ := snd (chunk_step content chunk_size start) in
        option_map (cons (start, end_))
          (chunk_windows fuel' content chunk_size overlap (end_ - overlap))
      else Some []
  end.

(** The text of a window before it is stripped. *)
Definition window_text (content : string) (w : Z * Z) : string :=
  slice content (fst w) (snd w).

(** Every window after the first starts [overlap] before the end of the
    one before it. *)
Fixpoint chained (overlap : Z) (ws : list (Z * Z)) : Prop :=
  match ws with
  | w1 :: ((w2 :: _) as rest) =>
      fst w2 = snd w1 - overlap /\ chained overlap rest
  | _ => True
  end.

(** The window texts put back together, each one after the first without
    its first [overlap] characters. *)
Definition reassemble (overlap : Z) (texts : list string) : string :=
  match texts with
  | [] => EmptyString
  | t :: rest =>
      t ++ fold_right append EmptyString (map (drop (Z.to_nat overlap)) rest)
  end.

End Scraper.

(** ** [services/rag_service.py] *)

Module RAG.
Import PyStr.

(** [ORDER BY key]: a stable insertion sort; among rows at equal distance
    the store may return any order, the model keeps the table's. *)
Fixpoint insert_by {A : Type} (key : A -> Q) (x : A) (l : list A) : list A :=
  match l with
  | [] => [x]
  | y :: l' =>
      if Qle_bool (key x) (key y) then x :: l else y :: insert_by key x l'
  end.

Definition order_by {A : Type} (key : A -> Q) (l : list A) : list A :=
  fold_right (insert_by key) [] l.

Section WithStore.

(** The vector type, the JSON values, the embedding provider
    ([EmbeddingService.encode]) and pgvector's [cosine_distance]. *)
Context {embedding json : Type}.
Variable encode : string -> embedding.
Variable cosine_distance : embedding -> embedding -> Q.

(** [models/database.py], class [Document]. *)
Record Document : Type := {
  id : string;
  title : string;
  content : string;
  url : string;
  dapp : string;
  doc_type : string;
  embedding_ : option embedding;
  meta_data : option json;
  created_at : Z;
  updated_at : Z
}.

(** The dictionaries [retrieve_relevant_documents] returns. *)
Record Retrieved : Type := {
  r_id : string;
  r_title : string;
  r_content : string;
  r_url : string;
  r_doc_type : string;
  r_metadata : option json;
  r_similarity : Q
}.

Definition to_retrieved (row : Document * Q) : Retrieved :=
  {| r_id := id (fst row);
     r_title := title (fst row);
     r_content := content (fst row);
     r_url := url (fst row);
     r_doc_type := doc_type (fst row);
     r_metadata := meta_data (fst row);
     r_similarity := snd row |}.

(** The [WHERE] clause, with the distance of the rows that pass it. *)
Definition scoped (query_embedding : embedding) (scope : string)
    (table : list Document) : list (Document * Q) :=
  flat_map
    (fun d =>
       match embedding_ d with
       | Some e =>
           if String.eqb (dapp d) scope
           then [(d, cosine_distance e query_embedding)] else []
       | None => []
       end) table.

(** The rows of the [SELECT], each with its [similarity] column;
    [None] when the store rejects a negative [LIMIT]. *)
Definition select_documents (query_embedding : embedding)
    (scope : string) (limit : Z) (table : list Document)
    : option (list (Document * Q)) :=
  if limit <? 0 then None
  else
    Some (map (fun r => (fst r, 1 - snd r)%Q)
            (firstn (Z.to_nat limit)
               (order_by snd (scoped query_embedding scope table)))).

(** The [for row in rows] loop with its [break]. *)
Fixpoint collect (rows : list (Document * Q)) (top_k : Z)
    (similarity_threshold : Q) (documents : list Retrieved)
    : list Retrieved :=
  match rows with
  | [] => documents
  | row :: rest =>
      if Qle_bool similarity_threshold (snd row) then
        let documents' := (documents ++ [to_retrieved row])%list in
        if top_k <=? Z.of_nat (List.length documents') then documents'
        else collect rest top_k similarity_threshold documents'
      else collect rest top_k similarity_threshold documents
  end.

Definition retrieve_relevant_documents (query : string)
    (db : list Document) (top_k : Z) (similarity_threshold : Q)
    (scope : string) : option (list Retrieved) :=
  let query_embedding := encode query in
  match select_documents query_embedding scope (top_k * 2) db with
  | Some rows => Some (collect rows top_k similarity_threshold [])
  | None => None
  end.

Definition doc_text (doc : Retrieved) : string :=
  "[" ++ r_title doc ++ "]" ++ Scraper.newline ++ r_content doc
  ++ Scraper.newline ++ "Source: " ++ r_url doc ++ Scraper.newline.

(** The [for doc in documents] loop of [build_context]. *)
Fixpoint build_parts (documents : list Retrieved)
    (max_length current_length : Z) (context_parts : list string)
    : list string :=
  match documents with
  | [] => context_parts
  | doc :: rest =>
      let text := doc_text doc in
      let doc_length := len text in
      if max_length <? current_length + doc_length then
        let remaining := max_length - current_length in
        if 100 <? remaining
        then (context_parts ++ [(slice_to text remaining ++ "...")%string])%list
        else context_parts
      else
        build_parts rest max_length (current_length + doc_length)
          (context_parts ++ [text])
  end.

Definition build_context (documents : list Retrieved) (max_length : Z)
    : string :=
  match documents with
  | [] => EmptyString
  | _ =>
      join (Scraper.newline ++ Scraper.newline)
        (build_parts documents max_length 0 [])
  end.

End WithStore.

Arguments Document : clear implicits.
Arguments Retrieved : clear implicits.

End RAG.

(** ** [hashlib.sha256] (FIPS 180-4) on byte lists *)

Module Sha256.

Definition w32 (x : Z) : Z := x mod 2 ^ 32.
Definition add32 (a b : Z) : Z := w32 (a + b).
Definition rotr (n x : Z) : Z :=
  Z.lor (Z.shiftr x n) (w32 (Z.shiftl x (32 - n))).
Definition not32 (x : Z) : Z := Z.lxor x 0xffffffff.

Definition Ch (x y z : Z) : Z :=
  Z.lxor (Z.land x y) (Z.land (not32 x) z).
Definition Maj (x y z : Z) : Z :=
  Z.lxor (Z.lxor (Z.land x y) (Z.land x z)) (Z.land y z).
Definition Sigma0 (x : Z) : Z :=
  Z.lxor (Z.lxor (rotr 2 x) (rotr 13 x)) (rotr 22 x).
Definition Sigma1 (x : Z) : Z :=
  Z.lxor (Z.lxor (rotr 6 x) (rotr 11 x)) (rotr 25 x).
Definition sigma0 (x : Z) : Z :=
  Z.lxor (Z.lxor (rotr 7 x) (rotr 18 x)) (Z.shiftr x 3).
Definition sigma1 (x : Z) : Z :=
  Z.lxor (Z.lxor (rotr 17 x) (rotr 19 x)) (Z.shiftr x 10).

(** The first 64 primes. *)
Definition is_prime (n : Z) : bool :=
forallb (fun d => negb (n mod d =? 0))
  (map Z.of_nat (seq 2 (Z.to_nat (Z.sqrt n) - 1))).

Definition primes : list Z :=
Eval vm_compute in filter is_prime (map Z.of_nat (seq 2 310)).

(** The integer cube root, one bit at a time. *)
Fixpoint cbrt_bits (bits : nat) (n r : Z) : Z :=
match bits with
| O => r
| S b =>
    let r' := r + 2 ^ Z.of_nat b in
    if r' * r' * r' <=? n then cbrt_bits b n r' else cbrt_bits b n r
end.

(** The round constants: the first 32 bits of the fractional parts of the
    cube roots of the primes. *)
Definition K : list Z :=
Eval vm_compute in map (fun p => w32 (cbrt_bits 40 (p * 2 ^ 96) 0)) primes.

(** The initial hash value: the same of the square roots of the first
    eight primes. *)
Definition H0 : list Z :=
Eval vm_compute in map (fun p => w32 (Z.sqrt (p * 2 ^ 64))) (firstn 8 primes).

(** Big-endian bytes of [x], [n] of them. *)
Fixpoint be_bytes (n : nat) (x : Z) : list Z :=
  match n with
  | O => []
  | S n' => (Z.shiftr x (8 * Z.of_nat n') mod 256) :: be_bytes n' x
  end.

(** The message, a 1 bit, zeros up to 56 mod 64, the bit length. *)
Definition pad (msg : list Z) : list Z :=
  let l := Z.of_nat (List.length msg) in
  (msg ++ [0x80] ++ repeat 0 (Z.to_nat ((55 - l) mod 64))
   ++ be_bytes 8 (8 * l))%list.

Fixpoint be_words (n : nat) (bytes : list Z) : list Z :=
  match n, bytes with
  | S n', b0 :: b1 :: b2 :: b3 :: rest =>
      (b0 * 2 ^ 24 + b1 * 2 ^ 16 + b2 * 2 ^ 8 + b3) :: be_words n' rest
  | _, _ => []
  end.

(** The message schedule: 16 words of the block, then 48 derived ones. *)
Fixpoint extend (n : nat) (w : list Z) : list Z :=
  match n with
  | O => w
  | S n' =>
      let t := List.length w in
      let x :=
        add32 (add32 (sigma1 (nth (t - 2) w 0)) (nth (t - 7) w 0))
              (add32 (sigma0 (nth (t - 15) w 0)) (nth (t - 16) w 0)) in
      extend n' (w ++ [x])%list
  end.

Definition round (st : list Z) (kw : Z * Z) : list Z :=
  match st with
  | [a; b; c; d; e; f; g; h] =>
      let t1 :=
        add32 (add32 (add32 h (Sigma1 e)) (Ch e f g))
              (add32 (fst kw) (snd kw)) in
      let t2 := add32 (Sigma0 a) (Maj a b c) in
      [add32 t1 t2; a; b; c; add32 d t1; e; f; g]
  | _ => st
  end.

Definition compress (h : list Z) (block : list Z) : list Z :=
  let w := extend 48 (be_words 16 block) in
  map (fun p => add32 (fst p) (snd p))
    (combine h (fold_left round (combine K w) h)).

Fixpoint blocks (n : nat) (h : list Z) (bytes : list Z) : list Z :=
  match n with
  | O => h
  | S n' => blocks n' (compress h (firstn 64 bytes)) (skipn 64 bytes)
  end.

Definition digest (msg : list Z) : list Z :=
  let p := pad msg in
  flat_map (be_bytes 4) (blocks (List.length p / 64) H0 p).

Definition hex_digit (n : Z) : ascii :=
  ascii_of_N (Z.to_N (if n <? 10 then 48 + n else 87 + n)).

Fixpoint hex (bytes : list Z) : string :=
  match bytes with
  | [] => EmptyString
  | b :: rest =>
      String (hex_digit (b / 16)) (String (hex_digit (b mod 16)) (hex rest))
  end.

(** [hashlib.sha256(data).hexdigest()] *)
Definition hexdigest (msg : list Z) : string := hex (digest msg).

End Sha256.

(** ** [services/cache_service.py] *)

Module Cache.
Import PyStr.

(** One second and one hour of [timedelta], in microseconds. *)
Definition second : Z := 1000000.
Definition hour : Z := 3600 * second.

(** [if x:] on an optional [int] and on an optional [str]. *)
Definition truthy_int (x : option Z) : option Z :=
  match x with
  | Some n => if n =? 0 then None else Some n
  | None => None
  end.

Definition truthy_str (x : option string) : option string :=
  match x with
  | Some s => if String.eqb s "" then None else Some s
  | None => None
  end.

Definition Qltb (a b : Q) : bool := negb (Qle_bool b a).

(** *** The Redis tier *)

(** The key-value store: a value and the instant it expires. *)
Definition kv : Type := string -> option (string * Z).

(** The client either reaches the server or raises on every command. *)
Inductive Redis : Type :=
| Down
| Up (store : kv).

Definition setex (store : kv) (now : Z) (key : string) (ttl : Z)
    (value : string) : kv :=
  fun k => if String.eqb k key then Some (value, now + ttl * second)
           else store k.

Definition get (store : kv) (now : Z) (key : string) : option string :=
  match store key with
  | Some (value, expires) => if now <? expires then Some value else None
  | None => None
  end.

(** [f"query_cache:{hashlib.sha256(query.lower().encode()).hexdigest()}"] *)
Definition cache_key (query : string) : string :=
  "query_cache:" ++ Sha256.hexdigest (encode (lower query)).

Section WithStore.

(** The vector type and the JSON values; the embedding provider,
    pgvector's [cosine_distance], [json.dumps] ([None]: [TypeError])
    and [json.loads] ([None]: [JSONDecodeError]). *)
Context {embedding json : Type}.
Variable encode_text : string -> embedding.
Variable cosine_distance : embedding -> embedding -> Q.
Variable dumps : json -> option string.
Variable loads : string -> option json.

(** [_cache_in_redis]: every failure is caught, the store is then left
    as it was.  Redis refuses an expiry that is not positive. *)
Definition _cache_in_redis (now : Z) (redis : Redis) (query : string)
    (response : json) (ttl_hours : Z) : Redis :=
  match redis with
  | Down => Down
  | Up store =>
      match dumps response with
      | Some text =>
          if 0 <? ttl_hours * 3600
          then Up (setex store now (cache_key query) (ttl_hours * 3600) text)
          else Up store
      | None => Up store
      end
  end.

(** [get_from_redis]: its only argument is the query. *)
Definition get_from_redis (now : Z) (redis : Redis) (query : string)
    : option json :=
  match redis with
  | Down => None
  | Up store =>
      match get store now (cache_key query) with
      | Some cached =>
          if String.eqb cached "" then None else loads cached
      | None => None
      end
  end.

(** *** The PostgreSQL tier *)

(** [models/database.py], class [QueryCache]. *)
Record QueryCache : Type := {
  id : string;
  query_text : string;
  query_embedding : option embedding;
  query_type : string;
  dapp : string;
  pool_id : option string;
  amount : option float;
  currency : option string;
  client_id : option string;
  response_json : json;
  confidence : option float;
  llm_provider : string;
  llm_model : string;
  use_count : Z;
  last_used_at : Z;
  created_at : Z;
  updated_at : Z
}.

(** What a hit returns: the stored payload with its two annotations. *)
Record CacheHit : Type := {
  response_data : json;
  _cached : bool;
  _cache_similarity : Q
}.

(** The [WHERE] clause of the lookup, with the distance of the rows that
    pass it.  The age condition is part of the same [WHERE]: it is
    applied before the rows are ordered and limited. *)
Definition candidates (query_embedding_ : embedding) (scope : string)
    (cutoff_time : option Z) (table : list QueryCache)
    : list (QueryCache * Q) :=
  flat_map
    (fun c =>
       match query_embedding c with
       | Some e =>
           if String.eqb (dapp c) scope
              && match cutoff_time with
                 | Some t => t <=? updated_at c
                 | None => true
                 end
           then [(c, cosine_distance e query_embedding_)] else []
       | None => []
       end) table.

(** [result.first()]: the nearest row and its [similarity] column. *)
Definition select_nearest (query_embedding_ : embedding) (scope : string)
    (cutoff_time : option Z) (table : list QueryCache)
    : option (QueryCache * Q) :=
  match RAG.order_by snd
          (candidates query_embedding_ scope cutoff_time table) with
  | [] => None
  | (c, d) :: _ => Some (c, (1 - d)%Q)
  end.

(** [_update_cache_stats]; the [UPDATE] also fires the [onupdate] of
    [updated_at]. *)
Definition _update_cache_stats (now : Z) (cache_id : string)
    (table : list QueryCache) : list QueryCache :=
  map (fun c =>
         if String.eqb (id c) cache_id then
           {| id := id c; query_text := query_text c;
              query_embedding := query_embedding c;
              query_type := query_type c; dapp := dapp c;
              pool_id := pool_id c; amount := amount c;
              currency := currency c; client_id := client_id c;
              response_json := response_json c;
              confidence := confidence c;
              llm_provider := llm_provider c; llm_model := llm_model c;
              use_count := use_count c + 1;
              last_used_at := now;
              created_at := created_at c;
              updated_at := now |}
         else c) table.

(** [if max_age_seconds: cutoff_time = utcnow() - timedelta(seconds=...)] *)
Definition cutoff_of (now : Z) (max_age_seconds : option Z) : option Z :=
  match truthy_int max_age_seconds with
  | Some n => Some (now - n * second)
  | None => None
  end.

Definition get_cached_response (now : Z) (query : string)
    (db : list QueryCache) (scope : string) (similarity_threshold : Q)
    (max_age_seconds : option Z)
    : list QueryCache * option CacheHit :=
  let query_embedding_ := encode_text query in
  let cutoff_time := cutoff_of now max_age_seconds in
  match select_nearest query_embedding_ scope cutoff_time db with
  | None => (db, None)
  | Some (cache_entry, similarity) =>
      if Qltb similarity similarity_threshold then (db, None)
      else
        (_update_cache_stats now (id cache_entry) db,
         Some {| response_data := response_json cache_entry;
                 _cached := true;
                 _cache_similarity := similarity |})
  end.

(** The keyword arguments of [save_response] that are stored as they
    come. *)
Record Details : Type := {
  d_query_type : string;
  d_pool_id : option string;
  d_amount : option float;
  d_currency : option string;
  d_client_id : option string;
  d_llm_provider : string;
  d_llm_model : string;
  d_confidence : option float
}.

(** [save_response]; [new_id] is the [uuid4] drawn for the row. *)
Definition save_response (now : Z) (new_id : string) (redis : Redis)
    (query : string) (response : json) (db : list QueryCache)
    (scope : string) (d : Details)
    : list QueryCache * Redis * QueryCache :=
  let cache_entry :=
    {| id := new_id; query_text := query;
       query_embedding := Some (encode_text query);
       query_type := d_query_type d; dapp := scope;
       pool_id := d_pool_id d; amount := d_amount d;
       currency := d_currency d; client_id := d_client_id d;
       response_json := response; confidence := d_confidence d;
       llm_provider := d_llm_provider d; llm_model := d_llm_model d;
       use_count := 1; last_used_at := now;
       created_at := now; updated_at := now |} in
  ((db ++ [cache_entry])%list,
   _cache_in_redis now redis query response 24,
   cache_entry).

(** The [WHERE] clause of the [DELETE]; a comparison with a [NULL]
    [pool_id] selects nothing. *)
Definition to_delete (now : Z) (pool : option string)
    (older_than_hours : option Z) (c : QueryCache) : bool :=
  match truthy_str pool with
  | Some p =>
      match pool_id c with
      | Some p' => String.eqb p' p
      | None => false
      end
  | None => true
  end
  && match truthy_int older_than_hours with
     | Some h => updated_at c <? now - h * hour
     | None => true
     end.


Definition fresh (now : Z) (max_age_seconds : option Z) (c : QueryCache)
    : Prop :=
  forall n, max_age_seconds = Some n -> now - n * second <= updated_at c.

(** [invalidate_cache]: it has no scope argument. *)
Definition invalidate_cache (now : Z) (db : list QueryCache)
    (pool : option string) (older_than_hours : option Z)
    : list QueryCache * Z :=
  (filter (fun c => negb (to_delete now pool older_than_hours c)) db,
   Z.of_nat
     (List.length (filter (to_delete now pool older_than_hours) db))).

End WithStore.

Arguments QueryCache : clear implicits.
Arguments CacheHit : clear implicits.

End Cache.

(** ** A small instance, for the examples

    Four vectors of norm 5, whose cosine distances are rational; an
    embedding provider that knows three questions; JSON payloads that are
    their own text. *)

Module Fixtures.
Import Cache.

Inductive vec5 : Type := V50 | V43 | V34 | V05.

Definition coords (v : vec5) : Z * Z :=
  match v with
  | V50 => (5, 0)
  | V43 => (4, 3)
  | V34 => (3, 4)
  | V05 => (0, 5)
  end.

Definition distance5 (u v : vec5) : Q :=
  (1 - ((fst (coords u) * fst (coords v) + snd (coords u) * snd (coords v))
        # 25))%Q.

Definition encode5 (text : string) : vec5 :=
  if String.eqb text "how do i deposit?" then V34
  else if String.eqb text "how to deposit" then V43
  else if String.eqb text "is it safe?" then V05
  else V50.

Definition dumps5 (j : string) : option string := Some j.
Definition loads5 (s : string) : option string := Some s.

Definition details5 (pool : option string) : Details :=
  {| d_query_type := "technical"; d_pool_id := pool; d_amount := None;
     d_currency := None; d_client_id := None; d_llm_provider := "openai";
     d_llm_model := "gpt-4"; d_confidence := None |}.

(** The row [save_response] writes for [text] at [time]. *)
Definition row5 (uuid text scope : string) (pool : option string)
    (answer : string) (time : Z) : QueryCache vec5 string :=
  snd (save_response encode5 dumps5 time uuid Down text answer [] scope
         (details5 pool)).

(** An old answer to the very question asked and a recent answer to a
    similar one, under the same scope. *)
Definition old_row : QueryCache vec5 string :=
  row5 "1" "how do i deposit?" "kamino" None "old answer" 0.
Definition recent_row : QueryCache vec5 string :=
  row5 "2" "how to deposit" "kamino" None "recent answer" (90 * second).

(** Three rows that differ in scope and pool. *)
Definition kamino_allez : QueryCache vec5 string :=
  row5 "3" "how do i deposit?" "kamino" (Some "allez-usdc") "a" 0.
Definition aave_allez : QueryCache vec5 string :=
  row5 "4" "how do i deposit?" "aave" (Some "allez-usdc") "b" 0.
Definition kamino_main : QueryCache vec5 string :=
  row5 "5" "how do i deposit?" "kamino" (Some "main-usdc") "c" 0.

(** A retrieved document whose block is [n + 15] characters long. *)
Fixpoint xs (n : nat) : string :=
  match n with
  | O => EmptyString
  | S n' => String "x" (xs n')
  end.

Definition doc5 (n : nat) : RAG.Retrieved string :=
  {| RAG.r_id := "d"; RAG.r_title := "t"; RAG.r_content := xs n;
     RAG.r_url := "u"; RAG.r_doc_type := "documentation";
     RAG.r_metadata := None; RAG.r_similarity := 9 # 10 |}.


End Fixtures.

(** ** More of [services/cache_service.py]: [get_cache_stats] *)

Module Stats.
Import Cache.

Section WithStore.
Context {embedding json : Type}.

(** What [get_cache_stats] returns; the two instants are given before
    [isoformat] renders them. *)
Record CacheStats : Type := {
  total_queries : Z;
  popular_queries : list (string * Z);
  oldest_entry : option Z;
  newest_entry : option Z
}.

(** [sql_func.min] and [sql_func.max] over a column: [NULL] on no row. *)
Fixpoint column_min (xs : list Z) : option Z :=
  match xs with
  | [] => None
  | x :: rest =>
      match column_min rest with
      | Some m => Some (Z.min x m)
      | None => Some x
      end
  end.

Fixpoint column_max (xs : list Z) : option Z :=
  match xs with
  | [] => None
  | x :: rest =>
      match column_max rest with
      | Some m => Some (Z.max x m)
      | None => Some x
      end
  end.

(** [ORDER BY use_count DESC LIMIT 5] *)
Definition most_used (db : list (QueryCache embedding json))
    : list (QueryCache embedding json) :=
  firstn 5 (RAG.order_by (fun c => inject_Z (- use_count c)) db).

Definition get_cache_stats (db : list (QueryCache embedding json))
    : CacheStats :=
  {| total_queries := Z.of_nat (List.length db);
     popular_queries :=
       map (fun c => (query_text c, use_count c)) (most_used db);
     oldest_entry := column_min (map created_at db);
     newest_entry := column_max (map created_at db) |}.

End WithStore.

End Stats.

(** ** More of [services/rag_service.py]: [add_document] and
       [search_documents] *)

Module Documents.
Import RAG.

Section WithStore.
Context {embedding json : Type}.
Variable encode : string -> embedding.
Variable cosine_distance : embedding -> embedding -> Q.






End WithStore.

End Documents.

(** ** [api/endpoints/ask.py]: the early refusal *)

Module Ask.
Import PyStr.

Definition other_protocols : list string :=
  [ "aave"; "compound"; "uniswap"; "curve"; "convex"; "yearn"; "maker";
    "lido"; "hyperliquid"; "dydx"; "gmx"; "synthetix"; "balancer";
    "sushiswap"; "pancakeswap"; "trader joe"; "benqi" ].

(** The [for protocol in other_protocols] loop with its [break]. *)
Fixpoint first_mention (protocols : list string)
    (query_lower current_protocol : string) : option string :=
  match protocols with
  | [] => None
  | protocol :: rest =>
      if contains protocol query_lower
         && negb (String.eqb protocol current_protocol)
      then Some protocol
      else first_mention rest query_lower current_protocol
  end.

(** [mentioned_protocol], from the request's query and dapp. *)
Definition mentioned_protocol (query dapp : string) : option string :=
  first_mention other_protocols (lower query) (lower dapp).

End Ask.

(** ** More of Python's [str] and [list] *)

Module PyText.
Import PyStr.

(** The first piece of [s.split(sep)] and the pieces after it, for a
    one-character [sep]. *)
Fixpoint split_first (sep : ascii) (s : string) : string * list string :=
  match s with
  | EmptyString => (EmptyString, [])
  | String c s' =>
      let '(piece, pieces) := split_first sep s' in
      if Ascii.eqb c sep then (EmptyString, piece :: pieces)
      else (String c piece, pieces)
  end.

(** [s.split(sep)] *)
Definition split (sep : ascii) (s : string) : list string :=
  let '(piece, pieces) := split_first sep s in piece :: pieces.

Fixpoint has_char (c : ascii) (s : string) : bool :=
  match s with
  | EmptyString => false
  | String d s' => Ascii.eqb d c || has_char c s'
  end.

(** [s.lstrip(chars)] *)
Fixpoint lstrip_chars (chars s : string) : string :=
  match s with
  | EmptyString => EmptyString
  | String c s' => if has_char c chars then lstrip_chars chars s' else s
  end.

(** [l[:n]] *)
Definition list_slice_to {A : Type} (l : list A) (n : Z) : list A :=
  firstn (Z.to_nat (clamp (Z.of_nat (List.length l)) n)) l.

(** [if s:] on a [str]. *)
Definition truthy (s : string) : bool := negb (String.eqb s "").

End PyText.

(** ** [core/config.py] and [core/security.py] *)

Module Security.
Import PyStr PyText.

(** [Settings.api_keys], from the comma-separated [api_keys_str]. *)
Definition api_keys (api_keys_str : string) : list string :=
  map strip (filter (fun key => truthy (strip key)) (split "," api_keys_str)).

Inductive HTTPException : Type :=
| HTTP_401_UNAUTHORIZED
| HTTP_403_FORBIDDEN.

(** [api_key] is the [X-API-Key] header, [None] when the request has
    none. *)
Definition verify_api_key (api_keys_str : string) (api_key : option string)
    : HTTPException + string :=
  match api_key with
  | None => inl HTTP_401_UNAUTHORIZED
  | Some key =>
      if negb (truthy key) then inl HTTP_401_UNAUTHORIZED
      else
        let valid_keys := map strip (api_keys api_keys_str) in
        if negb (existsb (String.eqb key) valid_keys)
        then inl HTTP_403_FORBIDDEN
        else inr key
  end.

(** The admin check is the key check and nothing more. *)
Definition verify_admin_api_key (api_keys_str : string)
    (api_key : option string) : HTTPException + string :=
  match verify_api_key api_keys_str api_key with
  | inl e => inl e
  | inr key => inr key
  end.

End Security.

(** ** [services/kamino_service.py], the mock data *)

Module Kamino.
Import PyStr.

Record PoolData : Type := {
  pool_id : string;
  pool_name : string;
  apr : float;
  apy : float;
  tvl : Z;
  updated_at : Z
}.

(** [d.get(key)] on a dictionary written as its items. *)
Fixpoint dict_get {V : Type} (d : list (string * V)) (key : string)
    : option V :=
  match d with
  | [] => None
  | (k, v) :: rest => if String.eqb k key then Some v else dict_get rest key
  end.

Definition minute : Z := 60 * Cache.second.

(** The dictionary [mock_pools]: the rates are the doubles written
    [0.124], [0.132], ..., and every [datetime.utcnow()] of the literal
    reads [now]. *)
Definition mock_pools (now : Z) : list (string * PoolData) :=
  [ ("allez-usdc",
     {| pool_id := "allez-usdc"; pool_name := "Allez USDC";
        apr := 0x1.fbe76c8b43958p-4%float;
        apy := 0x1.0e5604189374cp-3%float;
        tvl := 5420000; updated_at := now - 2 * Cache.hour |});
    ("main-usdc",
     {| pool_id := "main-usdc"; pool_name := "Main USDC";
        apr := 0x1.6c8b439581062p-4%float;
        apy := 0x1.7ced916872b02p-4%float;
        tvl := 12300000; updated_at := now - 1 * Cache.hour |});
    ("jito-sol",
     {| pool_id := "jito-sol"; pool_name := "JitoSOL";
        apr := 0x1.126e978d4fdf4p-4%float;
        apy := 0x1.1a9fbe76c8b44p-4%float;
        tvl := 8900000; updated_at := now - 30 * minute |});
    ("usdt-main",
     {| pool_id := "usdt-main"; pool_name := "USDT Main";
        apr := 0x1.851eb851eb852p-4%float;
        apy := 0x1.95810624dd2f2p-4%float;
        tvl := 6700000; updated_at := now - 3 * Cache.hour |}) ].

Definition _mock_get_pool_apr (now : Z) (pool : string) : option PoolData :=
  dict_get (mock_pools now) (lower pool).

Definition pool_ids : list string :=
  ["allez-usdc"; "main-usdc"; "jito-sol"; "usdt-main"].

Fixpoint collect_pools (now : Z) (ids : list string) : list PoolData :=
  match ids with
  | [] => []
  | id :: rest =>
      match _mock_get_pool_apr now id with
      | Some pool_data => pool_data :: collect_pools now rest
      | None => collect_pools now rest
      end
  end.

Definition _mock_get_all_pools (now : Z) : list PoolData :=
  collect_pools now pool_ids.

End Kamino.

(** ** [services/llm_service.py] *)

Module LLM.
Import PyStr PyText.

Record Message : Type := { role : string; content : string }.

(** The keyword arguments of [chat.completions.create]; [extra_body] holds
    its [max_completion_tokens]. *)
Record CompletionParams (T : Type) : Type := {
  model : string;
  messages : list Message;
  max_tokens : option Z;
  max_completion_tokens : option Z;
  extra_body : option Z;
  temperature : option T
}.
Arguments model {T}.
Arguments messages {T}.
Arguments max_tokens {T}.
Arguments max_completion_tokens {T}.
Arguments extra_body {T}.
Arguments temperature {T}.

(** [any(x in self.model for x in ["o1-", "o3-"])] *)
Definition o_series (model_ : string) : bool :=
  existsb (fun x => contains x model_) ["o1-"; "o3-"].

Definition blank_line : string := Scraper.newline ++ Scraper.newline.

(** What [OpenAIProvider.generate] sends. *)
Definition completion_params {T : Type} (model_ prompt : string)
    (system_prompt : option string) (temperature_ : T) (max_tokens_ : Z)
    : CompletionParams T :=
  let system_given :=
    match system_prompt with Some s => truthy s | None => false end in
  let system_text :=
    match system_prompt with Some s => s | None => EmptyString end in
  let prompt' :=
    if o_series model_ && system_given
    then system_text ++ blank_line ++ prompt else prompt in
  let messages_ :=
    ((if negb (o_series model_) && system_given
      then [{| role := "system"; content := system_text |}] else [])
     ++ [{| role := "user"; content := prompt' |}])%list in
  if o_series model_ then
    {| model := model_; messages := messages_; max_tokens := None;
       max_completion_tokens := Some max_tokens_; extra_body := None;
       temperature := None |}
  else if contains "gpt-5" model_ then
    {| model := model_; messages := messages_; max_tokens := None;
       max_completion_tokens := None; extra_body := Some max_tokens_;
       temperature := None |}
  else if contains "search-preview" model_ then
    {| model := model_; messages := messages_;
       max_tokens := Some max_tokens_; max_completion_tokens := None;
       extra_body := None; temperature := None |}
  else if contains "gpt-4o" model_ then
    {| model := model_; messages := messages_; max_tokens := None;
       max_completion_tokens := None; extra_body := Some max_tokens_;
       temperature := Some temperature_ |}
  else
    {| model := model_; messages := messages_;
       max_tokens := Some max_tokens_; max_completion_tokens := None;
       extra_body := None; temperature := Some temperature_ |}.

(** The token limit [generate_answer] asks for. *)
Definition answer_max_tokens (model_ : string) : Z :=
  if existsb (fun x => contains x model_) ["o1-"; "o3-"; "gpt-5"]
  then 4000 else 1500.

Definition _build_user_prompt (query : string) (context : option string)
    (dapp : string) : string :=
  match context with
  | Some c =>
      if truthy c then
        "Context from " ++ dapp ++ " documentation:" ++ blank_line ++ c
        ++ blank_line ++ "User question: " ++ query ++ blank_line
        ++ "Please answer based on the provided context."
      else "User question: " ++ query
  | None => "User question: " ++ query
  end.

(** The request [generate_answer] makes through the OpenAI provider, given
    the system prompt of the query type. *)
Definition answer_request {T : Type} (model_ system_prompt query : string)
    (context : option string) (dapp : string) (temperature_ : T)
    : CompletionParams T :=
  completion_params model_ (_build_user_prompt query context dapp)
    (Some system_prompt) temperature_ (answer_max_tokens model_).

Definition numbering : string := "0123456789.-) ".

(** The questions [generate_followup_questions] reads off the provider's
    answer [content_]. *)
Definition generate_followup_questions (content_ : string) (count : Z)
    : list string :=
  let questions :=
    map (fun q => lstrip_chars numbering (strip q))
      (filter (fun q => truthy (strip q)) (split "010" content_)) in
  list_slice_to questions count.

End LLM.

(** * Properties *)

(** ** Strings *)

Module PyStrFacts.
Import PyStr.

Lemma prefix_iff (sub s : string) :
  prefix sub s = true <-> exists post, s = sub ++ post.
Proof.
  revert s; induction sub as [|a sub IH]; intros s.
  - split; [intros _; now exists s | now destruct s].
  - destruct s as [|b s]; simpl.
    + split; [discriminate | intros [post H]; discriminate].
    + destruct (ascii_dec a b) as [->|Hne].
      * rewrite IH. split; intros [post H]; exists post.
        -- now rewrite H.
        -- now injection H.
      * split; [discriminate|].
        intros [post H]. injection H as H1 _. now elim Hne.
Qed.

Lemma contains_iff (sub s : string) :
  contains sub s = true <-> exists pre post, s = pre ++ sub ++ post.
Proof.
  induction s as [|c s IH]; cbn [contains];
    rewrite orb_true_iff, prefix_iff.
  - split.
    + intros [[post H]|H]; [|discriminate]. now exists "", post.
    + intros [pre [post H]]. left. destruct pre; simpl in H.
      * now exists post.
      * discriminate.
  - rewrite IH. split.
    + intros [[post H]|[pre [post H]]].
      * now exists "", post.
      * exists (String c pre), post. simpl. now rewrite H.
    + intros [pre [post H]]. destruct pre as [|c' pre]; simpl in H.
      * left. now exists post.
      * right. injection H as _ H. now exists pre, post.
Qed.

Lemma length_take (n : nat) (s : string) :
  String.length (take n s) = Nat.min n (String.length s).
Proof.
  revert s; induction n as [|n IH]; intros [|c s]; simpl; auto.
Qed.

Lemma length_drop (n : nat) (s : string) :
  String.length (drop n s) = (String.length s - n)%nat.
Proof.
  revert s; induction n as [|n IH]; intros [|c s]; simpl; auto.
Qed.

Lemma length_append (s t : string) :
  String.length (s ++ t) = (String.length s + String.length t)%nat.
Proof. induction s as [|c s IH]; simpl; auto. Qed.

Lemma take_all (n : nat) (s : string) :
  (String.length s <= n)%nat -> take n s = s.
Proof.
  revert s; induction n as [|n IH]; intros [|c s]; simpl; intros H;
    auto; try lia.
  f_equal. apply IH. lia.
Qed.

Lemma drop_all (n : nat) (s : string) :
  (String.length s <= n)%nat -> drop n s = EmptyString.
Proof.
  revert s; induction n as [|n IH]; intros [|c s]; simpl; intros H;
    auto; try lia.
  apply IH. lia.
Qed.

Lemma take_drop (n : nat) (s : string) : take n s ++ drop n s = s.
Proof.
  revert s; induction n as [|n IH]; intros [|c s]; simpl; auto.
  now rewrite IH.
Qed.

Lemma drop_drop (a k : nat) (s : string) :
  drop k (drop a s) = drop (a + k) s.
Proof.
  revert s; induction a as [|a IH]; intros s; simpl; auto.
  destruct s as [|c s]; auto.
  now destruct k.
Qed.

Lemma drop_take (k n : nat) (s : string) :
  drop k (take n s) = take (n - k) (drop k s).
Proof.
  revert n s; induction k as [|k IH]; intros n s; simpl.
  - now rewrite Nat.sub_0_r.
  - destruct n as [|n]; simpl.
    + now destruct s; [|destruct (drop k s)].
    + destruct s as [|c s]; simpl; auto.
      now destruct (n - k)%nat.
Qed.

Lemma take_take (n m : nat) (s : string) :
  take n (take m s) = take (Nat.min n m) s.
Proof.
  revert m s; induction n as [|n IH]; intros [|m] [|c s]; simpl; auto.
  now rewrite IH.
Qed.

(** Two adjacent pieces make one. *)
Lemma take_drop_split (a n m : nat) (s : string) :
  take n (drop a s) ++ take m (drop (a + n) s) = take (n + m) (drop a s).
Proof.
  rewrite <- drop_drop. generalize (drop a s) as t. clear s a.
  induction n as [|n IH]; intros t; simpl; auto.
  destruct t as [|c t]; simpl.
  - now destruct m.
  - now rewrite IH.
Qed.

(** A slice between bounds that are not negative. *)
Lemma slice_nonneg (s : string) (a b : Z) :
  0 <= a -> 0 <= b ->
  slice s a b = take (Z.to_nat b - Z.to_nat a) (drop (Z.to_nat a) s).
Proof.
  intros Ha Hb. unfold slice, clamp, len.
  destruct (a <? 0) eqn:Ea; [lia|]. destruct (b <? 0) eqn:Eb; [lia|].
  set (L := String.length s).
  destruct (Z_le_gt_dec a (Z.of_nat L)) as [HaL|HaL].
  - rewrite (Z.min_l a) by lia.
    destruct (Z_le_gt_dec b (Z.of_nat L)) as [HbL|HbL].
    + rewrite (Z.min_l b) by lia. f_equal. lia.
    + rewrite (Z.min_r b) by lia.
      rewrite !take_all; auto; rewrite length_drop; fold L; lia.
  - rewrite (Z.min_r a) by lia.
    rewrite (drop_all (Z.to_nat a)) by (fold L; lia).
    rewrite (drop_all (Z.to_nat (Z.of_nat L))) by (fold L; lia).
    now destruct (Z.to_nat _), (Z.to_nat b - Z.to_nat a)%nat.
Qed.

Lemma contains_false_rfind (sub s : string) (i : Z) :
  contains sub s = false -> rfind_from sub s i = -1.
Proof.
  revert i; induction s as [|c s IH]; intros i; cbn [contains rfind_from];
    rewrite orb_false_iff; intros [Hp Hc].
  - now rewrite Hp.
  - rewrite (IH _ Hc), Hp. reflexivity.
Qed.

Lemma rfind_from_bound (sub s : string) (i : Z) :
  sub <> EmptyString -> 0 <= i ->
  rfind_from sub s i = -1
  \/ i <= rfind_from sub s i < i + Z.of_nat (String.length s).
Proof.
  intros Hsub. revert i; induction s as [|c s IH]; intros i Hi;
    cbn [rfind_from].
  - left. destruct sub; [congruence | reflexivity].
  - destruct (IH (i + 1) ltac:(lia)) as [E|E].
    + rewrite E. change (0 <=? -1) with false. cbv iota.
      destruct (prefix sub (String c s)); [right|left; reflexivity].
      simpl String.length. lia.
    + destruct (0 <=? rfind_from sub s (i + 1)) eqn:E0; [|lia].
      right. simpl String.length. lia.
Qed.

Lemma rfind_bound (s sub : string) :
  sub <> EmptyString -> -1 <= rfind s sub < len s.
Proof.
  intros H. unfold rfind, len.
  destruct (rfind_from_bound sub s 0 H); lia.
Qed.

End PyStrFacts.

(** ** The classifier *)

Module ClassifierFacts.
Import PyStr QueryClassifier PyStrFacts.

Lemma any_keyword_iff (kws : list string) (query : string) :
  any_keyword kws query = true <-> mentions kws query.
Proof.
  unfold any_keyword, mentions, occurs. rewrite existsb_exists.
  split; intros [kw [Hin H]]; exists kw; split; auto;
    now apply contains_iff.
Qed.

Lemma any_keyword_false (kws : list string) (query : string) :
  ~ mentions kws query -> any_keyword kws query = false.
Proof.
  intros H. destruct (any_keyword kws query) eqn:E; auto.
  now apply any_keyword_iff in E.
Qed.

Lemma count_keywords_le (kws : list string) (query : string) :
  (count_keywords kws query <= List.length kws)%nat.
Proof. unfold count_keywords. apply filter_length_le. Qed.

(** The confidence as a function of what the query was found to contain:
    the number of keywords of the winning type, if there is one, and
    whether a pool and an amount were extracted. *)
Definition confidence_of (matches : option nat) (pool amt : bool) : float :=
  let c := 0.5%float in
  let c :=
    match matches with
    | Some m =>
        (c + fmin (int_times m tenth) four_tenths)%float
    | None => c
    end in
  let c := if pool then (c + tenth)%float else c in
  let c := if amt then (c + tenth)%float else c in
  fmin c 1%float.

Lemma confidence_of_bounds (matches : option nat) (pool amt : bool) :
  match matches with Some m => (m <= 19)%nat | None => True end ->
  PrimFloat.leb 0.5 (confidence_of matches pool amt) = true
  /\ PrimFloat.leb (confidence_of matches pool amt) 1 = true.
Proof.
  destruct matches as [m|].
  - intros Hm.
    do 20 (destruct m as [|m];
           [destruct pool, amt; vm_compute; split; reflexivity|]).
    lia.
  - intros _. destruct pool, amt; vm_compute; split; reflexivity.
Qed.

Section WithFloatParser.
Variable py_float : string -> option float.

Lemma calculate_confidence_shape (query : string) (qt : QueryType) :
  exists matches,
    _calculate_confidence py_float query qt
    = confidence_of matches (truthy_str (_extract_pool_id query))
        (truthy_float (_extract_amount py_float query))
    /\ match matches with Some m => (m <= 19)%nat | None => True end.
Proof.
  unfold _calculate_confidence, confidence_of.
  destruct qt; cbn [QueryType_eqb QueryType_value String.eqb Ascii.eqb
                    Bool.eqb].
  - exists (Some (count_keywords EARNINGS_KEYWORDS query)). split; auto.
    pose proof (count_keywords_le EARNINGS_KEYWORDS query) as H.
    simpl in H. lia.
  - now exists None.
  - exists (Some (count_keywords RISK_KEYWORDS query)). split; auto.
    pose proof (count_keywords_le RISK_KEYWORDS query) as H.
    simpl in H. lia.
  - exists (Some (count_keywords TECHNICAL_KEYWORDS query)). split; auto.
    pose proof (count_keywords_le TECHNICAL_KEYWORDS query) as H.
    simpl in H. lia.
  - now exists None.
Qed.

(** C8.  The type [classify] returns is decided on the lowercased query
    by keyword membership in a fixed order: a query that mentions an
    earnings keyword is [EARNINGS] (also when it mentions a risk
    keyword as well); otherwise one that mentions a risk keyword is
    [RISK]; otherwise one that mentions a technical keyword is
    [TECHNICAL]; otherwise it is [GENERAL].  In particular
    "Is it risky to deposit here?" is [RISK], although it mentions the
    technical keyword "deposit". *)
Theorem classify_type_priority (query : string) (pool : option string) :
  let q := lower query in
  let t := query_type (classify py_float query pool) in
  (mentions EARNINGS_KEYWORDS q -> t = EARNINGS)
  /\ (mentions EARNINGS_KEYWORDS q -> mentions RISK_KEYWORDS q ->
      t = EARNINGS)
  /\ (~ mentions EARNINGS_KEYWORDS q -> mentions RISK_KEYWORDS q ->
      t = RISK)
  /\ (~ mentions EARNINGS_KEYWORDS q -> ~ mentions RISK_KEYWORDS q ->
      mentions TECHNICAL_KEYWORDS q -> t = TECHNICAL)
  /\ (~ mentions EARNINGS_KEYWORDS q -> ~ mentions RISK_KEYWORDS q ->
      ~ mentions TECHNICAL_KEYWORDS q -> t = GENERAL)
  /\ query_type (classify py_float "Is it risky to deposit here?" None)
     = RISK
  /\ mentions TECHNICAL_KEYWORDS (lower "Is it risky to deposit here?").
Proof.
  cbv zeta. cbn [classify query_type]. unfold _determine_type.
  repeat split.
  - intros E. apply any_keyword_iff in E. now rewrite E.
  - intros E _. apply any_keyword_iff in E. now rewrite E.
  - intros E R. apply any_keyword_false in E.
    apply any_keyword_iff in R. now rewrite E, R.
  - intros E R T. apply any_keyword_false in E, R.
    apply any_keyword_iff in T. now rewrite E, R, T.
  - intros E R T. apply any_keyword_false in E, R, T.
    now rewrite E, R, T.
  - apply any_keyword_iff. reflexivity.
Qed.

(** C10.  For every query and optional pool id, [classify] is defined
    and its confidence lies between 0.5 and 1.0: it starts at 0.5, no
    adjustment is negative, and the result is capped at 1.0. *)
Theorem classify_confidence_bounds (query : string)
    (pool : option string) :
  let c := confidence (classify py_float query pool) in
  PrimFloat.leb 0.5 c = true /\ PrimFloat.leb c 1 = true.
Proof.
  cbv zeta. cbn [classify confidence].
  destruct (calculate_confidence_shape (lower query)
              (_determine_type (lower query))) as [m [-> Hm]].
  now apply confidence_of_bounds.
Qed.

End WithFloatParser.

End ClassifierFacts.

(** ** Chunking *)

Module ScraperFacts.
Import PyStr PyStrFacts Scraper.

Section Chunking.
Variable content : string.
Variables chunk_size overlap : Z.
Hypothesis size_nonneg : 0 <= chunk_size.
Hypothesis overlap_small : 2 * overlap < chunk_size.

Lemma chunk_step_advances (start : Z) :
  start < snd (chunk_step content chunk_size start) - overlap.
Proof.
  unfold chunk_step. cbv zeta.
  destruct (start + chunk_size <? len content); [|cbn [snd]; lia].
  match goal with |- context [chunk_size <? ?b] =>
    destruct (Z.ltb_spec chunk_size b) end; cbn [snd]; lia.
Qed.

(** With no full stop and no newline in the window, the cut is the raw
    boundary. *)
Lemma chunk_step_fallback (start : Z) :
  let chunk := slice content start (start + chunk_size) in
  contains "." chunk = false -> contains newline chunk = false ->
  chunk_step content chunk_size start = (chunk, start + chunk_size).
Proof.
  intros chunk Hp Hn. unfold chunk_step. fold chunk.
  unfold rfind. rewrite (contains_false_rfind _ _ _ Hp),
    (contains_false_rfind _ _ _ Hn).
  destruct (start + chunk_size <? len content); auto.
  destruct (Z.ltb_spec chunk_size (2 * Z.max (-1) (-1))); auto. lia.
Qed.

(** The loop ends, and goes through the same windows whatever fuel is
    left over. *)
Lemma chunk_windows_total (n : nat) :
  forall start : Z,
    Z.max 0 (len content - start) <= Z.of_nat n ->
    exists ws,
      forall fuel, (n < fuel)%nat ->
        chunk_windows fuel content chunk_size overlap start = Some ws.
Proof.
  induction n as [|n IH]; intros start Hn.
  - exists []. intros [|fuel] Hf; [lia|]. simpl.
    destruct (Z.ltb_spec start (len content)); [lia | reflexivity].
  - destruct (Z.ltb_spec start (len content)) as [Hlt|Hge].
    + pose proof (chunk_step_advances start) as Hadv.
      set (end_ := snd (chunk_step content chunk_size start)) in *.
      destruct (IH (end_ - overlap)) as [ws Hws]; [lia|].
      exists ((start, end_) :: ws). intros [|fuel] Hf; [lia|]. simpl.
      destruct (Z.ltb_spec start (len content)); [|lia].
      fold end_. now rewrite Hws by lia.
    + exists []. intros [|fuel] Hf; [lia|]. simpl.
      destruct (Z.ltb_spec start (len content)); [lia | reflexivity].
Qed.

(** The chunk cut at [start] is the text of its window. *)
Lemma chunk_step_text (start : Z) :
  0 <= start ->
  fst (chunk_step content chunk_size start)
  = slice content start (snd (chunk_step content chunk_size start)).
Proof.
  intros Hs. unfold chunk_step.
  destruct (Z.ltb_spec (start + chunk_size) (len content)) as [Hin|];
    [|reflexivity].
  set (chunk := slice content start (start + chunk_size)).
  set (bp := Z.max (rfind chunk ".") (rfind chunk newline)).
  destruct (Z.ltb_spec chunk_size (2 * bp)) as [Hbp|]; [|reflexivity].
  simpl.
  assert (Hchunk : chunk
                   = take (Z.to_nat chunk_size)
                       (drop (Z.to_nat start) content)).
  { unfold chunk. rewrite slice_nonneg by lia. f_equal. lia. }
  assert (Hlen : len chunk = chunk_size).
  { unfold len in *. rewrite Hchunk, length_take, length_drop. lia. }
  assert (Hb : bp < len chunk).
  { pose proof (rfind_bound chunk "." ltac:(discriminate)).
    pose proof (rfind_bound chunk newline ltac:(discriminate)).
    unfold bp. lia. }
  unfold slice_to. rewrite !slice_nonneg by lia.
  change (Z.to_nat 0) with 0%nat. cbn [drop]. rewrite Nat.sub_0_r.
  rewrite Hchunk, take_take. f_equal. lia.
Qed.

Definition stripped (w : Z * Z) : string := strip (window_text content w).

Lemma chunk_loop_windows (fuel : nat) :
  forall (start : Z) (chunks : list string),
    0 <= start ->
    chunk_loop fuel content chunk_size overlap start chunks
    = option_map (fun ws => (chunks ++ map stripped ws)%list)
        (chunk_windows fuel content chunk_size overlap start).
Proof.
  induction fuel as [|fuel IH]; intros start chunks Hs; simpl; auto.
  destruct (start <? len content); simpl; [|now rewrite app_nil_r].
  pose proof (chunk_step_advances start) as Hadv.
  pose proof (chunk_step_text start Hs) as Htext.
  destruct (chunk_step content chunk_size start) as [chunk end_].
  simpl in *. rewrite IH by lia.
  destruct (chunk_windows fuel content chunk_size overlap (end_ - overlap));
    simpl; auto.
  rewrite <- app_assoc. unfold stripped at 2, window_text. simpl.
  now rewrite Htext.
Qed.

Lemma chunk_windows_chained (fuel : nat) :
  forall (start : Z) (ws : list (Z * Z)),
    chunk_windows fuel content chunk_size overlap start = Some ws ->
    chained overlap ws
    /\ match ws with [] => True | w :: _ => fst w = start end.
Proof.
  induction fuel as [|fuel IH]; intros start ws; simpl; [discriminate|].
  destruct (start <? len content).
  - set (end_ := snd (chunk_step content chunk_size start)).
    destruct (chunk_windows fuel content chunk_size overlap (end_ - overlap))
      as [ws'|] eqn:E; simpl; [|discriminate].
    intros H; injection H as <-. destruct (IH _ _ E) as [Hc Hh].
    split; auto. destruct ws' as [|w' ws']; simpl; auto.
  - intros H; injection H as <-. simpl. auto.
Qed.

Hypothesis overlap_nonneg : 0 <= overlap.

Lemma chunk_windows_cover (fuel : nat) :
  forall (start : Z) (ws : list (Z * Z)),
    0 <= start ->
    chunk_windows fuel content chunk_size overlap start = Some ws ->
    fold_right append EmptyString
      (map (drop (Z.to_nat overlap)) (map (window_text content) ws))
    = drop (Z.to_nat (start + overlap)) content.
Proof.
  induction fuel as [|fuel IH]; intros start ws Hs; simpl; [discriminate|].
  destruct (Z.ltb_spec start (len content)) as [Hlt|Hge].
  - pose proof (chunk_step_advances start) as Hadv.
    set (end_ := snd (chunk_step content chunk_size start)) in *.
    destruct (chunk_windows fuel content chunk_size overlap (end_ - overlap))
      as [ws'|] eqn:E; simpl; [|discriminate].
    intros H; injection H as <-. simpl.
    rewrite (IH (end_ - overlap) ws' ltac:(lia) E). unfold window_text.
    cbn [fst snd].
    rewrite slice_nonneg by lia. rewrite drop_take, drop_drop.
    replace (Z.to_nat (end_ - overlap + overlap))
      with (Z.to_nat start + Z.to_nat overlap
            + (Z.to_nat end_ - Z.to_nat start - Z.to_nat overlap))%nat by lia.
    rewrite <- (drop_drop (Z.to_nat start + Z.to_nat overlap)).
    rewrite take_drop. f_equal. lia.
  - intros H; injection H as <-. simpl.
    symmetry. apply drop_all. unfold len in Hge. lia.
Qed.

End Chunking.

(** C7.  When [chunk_size] is not negative and [overlap] is less than half
    of it, [chunk_content] terminates on every content: each pass of the
    loop moves the window start strictly forward; a window with no full
    stop and no newline is cut at its raw boundary [start + chunk_size]; and
    any fuel above the length of the content yields the same list of
    chunks. *)
Theorem chunk_content_terminates (content : string)
    (chunk_size overlap : Z) :
  0 <= chunk_size -> 2 * overlap < chunk_size ->
  (forall start,
     start < snd (chunk_step content chunk_size start) - overlap)
  /\ (forall start,
        contains "." (slice content start (start + chunk_size)) = false ->
        contains newline (slice content start (start + chunk_size)) = false ->
        snd (chunk_step content chunk_size start) = start + chunk_size)
  /\ exists chunks,
       forall fuel, (String.length content < fuel)%nat ->
         chunk_content fuel content chunk_size overlap = Some chunks.
Proof.
  intros Hs Ho. split; [|split].
  - intros start. now apply chunk_step_advances.
  - intros start Hp Hn.
    now rewrite (chunk_step_fallback content chunk_size Hs start Hp Hn).
  - unfold chunk_content.
    destruct (len content <=? chunk_size); [now exists [content]|].
    destruct (chunk_windows_total content chunk_size overlap Hs Ho
                (String.length content) 0) as [ws Hws];
      [unfold len; lia|].
    exists (map (stripped content) ws). intros fuel Hf.
    rewrite chunk_loop_windows, (Hws fuel Hf) by lia. reflexivity.
Qed.

(** C6, as the code has it.  Content no longer than [chunk_size] comes back
    as one chunk, the content itself, not stripped (so the stripped content
    only when it has no white space at either end).  Longer content, with
    [0 <= overlap] and [overlap] less than half of [chunk_size], is cut
    along windows: the first starts at 0, every later one starts [overlap]
    before the end of the one before it, each returned chunk is the stripped
    text of its window, and the window texts, each after the first without
    its first [overlap] characters, put together give back the content. *)
Theorem chunk_content_windows (content : string) (chunk_size overlap : Z) :
  (len content <= chunk_size ->
   forall fuel,
     chunk_content fuel content chunk_size overlap = Some [content])
  /\ (len content <= chunk_size -> strip content = content ->
      forall fuel,
        chunk_content fuel content chunk_size overlap
        = Some [strip content])
  /\ (chunk_size < len content -> 0 <= overlap ->
      2 * overlap < chunk_size ->
      exists end_ rest,
        (forall fuel, (String.length content < fuel)%nat ->
           chunk_windows fuel content chunk_size overlap 0
           = Some ((0, end_) :: rest)
           /\ chunk_content fuel content chunk_size overlap
              = Some (map (fun w => strip (window_text content w))
                        ((0, end_) :: rest)))
        /\ chained overlap ((0, end_) :: rest)
        /\ reassemble overlap (map (window_text content) ((0, end_) :: rest))
           = content).
Proof.
  split; [|split].
  - intros H fuel. unfold chunk_content.
    now destruct (Z.leb_spec (len content) chunk_size); [|lia].
  - intros H Hstrip fuel. unfold chunk_content. rewrite Hstrip.
    now destruct (Z.leb_spec (len content) chunk_size); [|lia].
  - intros Hlong Ho Hhalf.
    assert (Hs : 0 <= chunk_size) by lia.
    destruct (chunk_windows_total content chunk_size overlap Hs Hhalf
                (String.length content) 0) as [ws Hws];
      [unfold len; lia|].
    pose proof (Hws (S (String.length content)) ltac:(lia)) as H1.
    pose proof H1 as H2. simpl in H2.
    destruct (Z.ltb_spec 0 (len content)) as [_|]; [|lia].
    set (end_ := snd (chunk_step content chunk_size 0)) in *.
    pose proof (chunk_step_advances content chunk_size overlap Hs Hhalf 0)
      as Hadv. fold end_ in Hadv.
    destruct (chunk_windows (String.length content) content chunk_size
                overlap (end_ - overlap)) as [rest|] eqn:Erest;
      [|discriminate].
    simpl in H2. injection H2 as <-.
    exists end_, rest. split; [|split].
    + intros fuel Hf. split; [now apply Hws|].
      unfold chunk_content.
      destruct (Z.leb_spec (len content) chunk_size); [lia|].
      rewrite (chunk_loop_windows content chunk_size overlap Hs Hhalf)
        by lia.
      now rewrite (Hws fuel Hf).
    + now apply (chunk_windows_chained content chunk_size overlap _ _ _ H1).
    + unfold reassemble. cbn [map].
      rewrite (chunk_windows_cover content chunk_size overlap Hs Hhalf Ho
                 _ (end_ - overlap) rest ltac:(lia) Erest).
      unfold window_text. cbn [fst snd].
      rewrite slice_nonneg by lia. change (Z.to_nat 0) with 0%nat.
      cbn [drop]. rewrite Nat.sub_0_r.
      replace (Z.to_nat (end_ - overlap + overlap)) with (Z.to_nat end_)
        by lia.
      apply take_drop.
Qed.

End ScraperFacts.


(** ** Retrieval and context building *)

Module RAGFacts.
Import PyStr PyStrFacts RAG.

Section Ordering.
Context {A : Type} (key : A -> Q).

Lemma insert_by_In (x y : A) (l : list A) :
  In y (insert_by key x l) <-> y = x \/ In y l.
Proof.
  induction l as [|a l IH]; simpl.
  - intuition auto.
  - destruct (Qle_bool (key x) (key a)); simpl; rewrite ?IH; intuition auto.
Qed.

Lemma order_by_In (y : A) (l : list A) : In y (order_by key l) <-> In y l.
Proof.
  induction l as [|a l IH]; simpl; [tauto|].
  rewrite insert_by_In, IH. intuition auto.
Qed.

(** The first row of [ORDER BY] is at the least distance. *)
Lemma order_by_head (l : list A) (x : A) (rest : list A) :
  order_by key l = x :: rest ->
  forall y, In y l -> (key x <= key y)%Q.
Proof.
  revert x rest; induction l as [|a l IH]; intros x rest; simpl;
    [discriminate|].
  destruct (order_by key l) as [|b s] eqn:E; simpl.
  - intros H y Hy. injection H as <- _.
    destruct Hy as [<-|Hy]; [apply Qle_refl|].
    apply order_by_In in Hy. rewrite E in Hy. destruct Hy.
  - destruct (Qle_bool (key a) (key b)) eqn:Eab; intros H y Hy;
      injection H as <- _.
    + destruct Hy as [<-|Hy]; [apply Qle_refl|].
      apply Qle_bool_iff in Eab.
      eapply Qle_trans; [exact Eab|]. exact (IH b s eq_refl y Hy).
    + destruct Hy as [<-|Hy]; [|exact (IH b s eq_refl y Hy)].
      destruct (Qlt_le_dec (key b) (key a)) as [Hlt|Hle].
      * now apply Qlt_le_weak.
      * apply Qle_bool_iff in Hle. congruence.
Qed.

End Ordering.

Lemma firstn_In {A : Type} (n : nat) (l : list A) (x : A) :
  In x (firstn n l) -> In x l.
Proof.
  revert l; induction n as [|n IH]; intros [|a l]; simpl; try tauto.
  intros [<-|H]; auto.
Qed.

Section WithStore.
Context {embedding json : Type}.
Variable encode : string -> embedding.
Variable cosine_distance : embedding -> embedding -> Q.

Lemma scoped_In (query_embedding : embedding) (scope : string)
    (table : list (Document embedding json)) (row : Document embedding json)
    (d : Q) :
  In (row, d) (scoped cosine_distance query_embedding scope table) ->
  In row table /\ dapp row = scope.
Proof.
  unfold scoped. rewrite in_flat_map. intros [r [Hr H]].
  destruct (embedding_ r); [|destruct H].
  destruct (String.eqb_spec (dapp r) scope); [|destruct H].
  destruct H as [H|[]]. injection H as <- _. auto.
Qed.

Lemma collect_In (rows : list (Document embedding json * Q)) (top_k : Z)
    (threshold : Q) (acc : list (Retrieved json)) (d : Retrieved json) :
  In d (collect rows top_k threshold acc) ->
  In d acc \/ exists row, In row rows /\ d = to_retrieved row.
Proof.
  revert acc; induction rows as [|row rows IH]; intros acc; simpl; auto.
  destruct (Qle_bool threshold (snd row)).
  - destruct (top_k <=? _).
    + rewrite in_app_iff. intros [H|[<-|[]]]; eauto.
    + intros H. apply IH in H. rewrite in_app_iff in H.
      destruct H as [[H|[<-|[]]]|[r [Hr ->]]]; eauto.
  - intros H. apply IH in H. destruct H as [H|[r [Hr ->]]]; eauto.
Qed.

(** Every document retrieved for a scope is a row of that scope. *)
Lemma retrieve_scope (query : string) (db : list (Document embedding json))
    (top_k : Z) (threshold : Q) (scope : string)
    (docs : list (Retrieved json)) (d : Retrieved json) :
  retrieve_relevant_documents encode cosine_distance query db top_k
    threshold scope = Some docs ->
  In d docs ->
  exists row sim,
    In row db /\ dapp row = scope /\ d = to_retrieved (row, sim).
Proof.
  unfold retrieve_relevant_documents, select_documents.
  destruct (top_k * 2 <? 0); [discriminate|].
  intros H; injection H as <-. intros Hd.
  apply collect_In in Hd. destruct Hd as [[]|[[row sim] [Hrow ->]]].
  apply in_map_iff in Hrow. destruct Hrow as [[r dist] [E Hr]].
  simpl in E. injection E as -> <-.
  apply firstn_In, order_by_In, scoped_In in Hr.
  exists row, (1 - dist)%Q. tauto.
Qed.

End WithStore.

(** *** The length of the context *)

Definition total (parts : list string) : Z :=
  fold_right (fun p n => len p + n) 0 parts.

Lemma total_app (a b : list string) : total (a ++ b) = total a + total b.
Proof. induction a as [|p a IH]; simpl; lia. Qed.

Lemma len_append (s t : string) : len (s ++ t) = len s + len t.
Proof. unfold len. rewrite length_append. lia. Qed.

Lemma len_join (sep : string) (parts : list string) :
  parts <> [] ->
  len (join sep parts)
  = total parts + len sep * (Z.of_nat (List.length parts) - 1).
Proof.
  induction parts as [|p parts IH]; [congruence|]. intros _.
  destruct parts as [|q parts].
  - simpl. lia.
  - change (join sep (p :: q :: parts))
      with (p ++ sep ++ join sep (q :: parts)).
    rewrite !len_append, IH by discriminate.
    cbn [total fold_right List.length]. lia.
Qed.

Lemma len_slice_to (s : string) (n : Z) : 0 <= n -> len (slice_to s n) <= n.
Proof.
  intros H. unfold slice_to. rewrite slice_nonneg by lia.
  unfold len. rewrite length_take. lia.
Qed.

(** The blocks themselves stay within [max_length] and one marker. *)
Lemma build_parts_total {json : Type} (documents : list (Retrieved json))
    (max_length current_length : Z) (parts : list string) :
  total parts = current_length -> current_length <= max_length ->
  total (build_parts documents max_length current_length parts)
  <= max_length + len "...".
Proof.
  revert current_length parts;
    induction documents as [|doc documents IH]; intros cur parts Ht Hc;
    simpl.
  - change (len "...") with 3. lia.
  - destruct (Z.ltb_spec max_length (cur + len (doc_text doc))).
    + destruct (Z.ltb_spec 100 (max_length - cur)).
      * rewrite total_app. simpl. rewrite len_append.
        pose proof (len_slice_to (doc_text doc) (max_length - cur)).
        change (len "...") with 3. lia.
      * change (len "...") with 3. lia.
    + apply IH; [|lia]. rewrite total_app. simpl. lia.
Qed.

End RAGFacts.

(** ** The two cache tiers *)

Module CacheFacts.
Import PyStr PyStrFacts Cache RAGFacts.


Section WithStore.
Context {embedding json : Type}.
Variable encode : string -> embedding.
Variable cosine_distance : embedding -> embedding -> Q.

Lemma candidates_In (q : embedding) (scope : string) (cutoff : option Z)
    (db : list (QueryCache embedding json)) (c : QueryCache embedding json)
    (d : Q) :
  In (c, d) (candidates cosine_distance q scope cutoff db)
  <-> In c db /\ dapp c = scope
      /\ (forall t, cutoff = Some t -> t <= updated_at c)
      /\ exists e, query_embedding c = Some e /\ d = cosine_distance e q.
Proof.
  unfold candidates. rewrite in_flat_map. split.
  - intros [r [Hr H]].
    destruct (query_embedding r) as [e|] eqn:Ee; [|destruct H].
    destruct (String.eqb_spec (dapp r) scope) as [Hs|]; [|destruct H].
    simpl in H. destruct cutoff as [t|].
    + destruct (Z.leb_spec t (updated_at r)); [|destruct H].
      destruct H as [H|[]]. injection H as <- <-.
      repeat split; auto; [|now exists e].
      intros t' Ht. injection Ht as <-. assumption.
    + destruct H as [H|[]]. injection H as <- <-.
      repeat split; auto; [discriminate|now exists e].
  - intros (Hin & Hs & Hc & e & He & ->). exists c. split; auto.
    rewrite He, Hs, String.eqb_refl. simpl.
    destruct cutoff as [t|]; [|now left].
    destruct (Z.leb_spec t (updated_at c)); [now left|].
    specialize (Hc t eq_refl). lia.
Qed.

(** The selected row passes the [WHERE] clause and is at the least distance
    among the rows that do. *)
Lemma select_nearest_spec (q : embedding) (scope : string)
    (cutoff : option Z) (db : list (QueryCache embedding json))
    (c : QueryCache embedding json) (sim : Q) :
  select_nearest cosine_distance q scope cutoff db = Some (c, sim) ->
  exists d,
    sim = (1 - d)%Q
    /\ In (c, d) (candidates cosine_distance q scope cutoff db)
    /\ forall c' d',
         In (c', d') (candidates cosine_distance q scope cutoff db) ->
         (d <= d')%Q.
Proof.
  unfold select_nearest.
  destruct (RAG.order_by snd (candidates cosine_distance q scope cutoff db))
    as [|[c0 d0] rest] eqn:E; [discriminate|].
  intros H; injection H as <- <-. exists d0. split; [reflexivity|]. split.
  - apply (order_by_In snd). rewrite E. now left.
  - intros c' d' H. exact (order_by_head snd _ _ _ E (c', d') H).
Qed.

Lemma lookup_hit (now : Z) (query : string)
    (db : list (QueryCache embedding json)) (scope : string)
    (threshold : Q) (max_age : option Z)
    (db' : list (QueryCache embedding json)) (hit : CacheHit json) :
  get_cached_response encode cosine_distance now query db scope threshold
    max_age = (db', Some hit) ->
  exists c sim,
    select_nearest cosine_distance (encode query) scope
      (cutoff_of now max_age) db = Some (c, sim)
    /\ (threshold <= sim)%Q
    /\ hit = {| response_data := response_json c; _cached := true;
                _cache_similarity := sim |}
    /\ db' = _update_cache_stats now (id c) db.
Proof.
  unfold get_cached_response. cbv zeta.
  destruct (select_nearest cosine_distance (encode query) scope
              (cutoff_of now max_age) db) as [[c sim]|]; [|discriminate].
  unfold Qltb. destruct (Qle_bool threshold sim) eqn:E; simpl;
    [|discriminate].
  intros H; injection H as <- <-. exists c, sim.
  apply Qle_bool_iff in E. auto.
Qed.

Lemma cutoff_of_fresh (now : Z) (max_age : option Z)
    (c : QueryCache embedding json) :
  (forall n, max_age = Some n -> n <> 0 -> now - n * second <= updated_at c)
  <-> (forall t, cutoff_of now max_age = Some t -> t <= updated_at c).
Proof.
  unfold cutoff_of, truthy_int. destruct max_age as [n|].
  - destruct (Z.eqb_spec n 0) as [->|Hn]; split.
    + discriminate.
    + intros _ n Hn Hz. injection Hn as <-. congruence.
    + intros H t Ht. injection Ht as <-. now apply H.
    + intros H m Hm _. injection Hm as <-. now apply H.
  - split; discriminate.
Qed.

(** C1, as the code has it.  A lookup returns a hit only for an entry of
    the requested scope whose similarity, one minus its cosine distance to
    the query, reaches the floor and which, when a nonzero [max_age_seconds]
    is given, was updated no earlier than [now - max_age_seconds]; that
    entry is the nearest among the entries of the scope that pass this age
    condition (the age condition is applied before the nearest row is
    taken, not after). *)
Theorem lookup_hit_conditions (now : Z) (query : string)
    (db : list (QueryCache embedding json)) (scope : string)
    (threshold : Q) (max_age : option Z)
    (db' : list (QueryCache embedding json)) (hit : CacheHit json) :
  get_cached_response encode cosine_distance now query db scope threshold
    max_age = (db', Some hit) ->
  exists entry e,
    In entry db /\ dapp entry = scope /\ query_embedding entry = Some e
    /\ response_data hit = response_json entry
    /\ _cache_similarity hit = (1 - cosine_distance e (encode query))%Q
    /\ (threshold <= _cache_similarity hit)%Q
    /\ (forall n, max_age = Some n -> n <> 0 ->
        now - n * second <= updated_at entry)
    /\ (forall other e',
          In other db -> dapp other = scope ->
          query_embedding other = Some e' ->
          (forall n, max_age = Some n -> n <> 0 ->
             now - n * second <= updated_at other) ->
          (cosine_distance e (encode query)
           <= cosine_distance e' (encode query))%Q).
Proof.
  intros H. apply lookup_hit in H.
  destruct H as (c & sim & Hsel & Hthr & -> & _).
  apply select_nearest_spec in Hsel.
  destruct Hsel as (d & -> & Hin & Hmin).
  apply candidates_In in Hin.
  destruct Hin as (Hin & Hs & Hc & e & He & ->).
  exists c, e. simpl. repeat split; auto.
  - now apply cutoff_of_fresh.
  - intros other e' Ho Hos Hoe Hof.
    apply (Hmin other). apply candidates_In. repeat split; auto.
    + now apply cutoff_of_fresh.
    + now exists e'.
Qed.

(** C3.  A lookup under a scope only ever returns an entry of that scope,
    whatever its similarity and whatever age bound is asked: an entry
    stored under another scope is never the selected row; and every
    document retrieved for a scope is a row of that scope. *)
Theorem scope_isolation (now : Z) (query : string) (scope : string)
    (threshold : Q) (max_age : option Z) (top_k : Z)
    (db : list (QueryCache embedding json))
    (documents : list (RAG.Document embedding json)) :
  (forall db' hit,
     get_cached_response encode cosine_distance now query db scope
       threshold max_age = (db', Some hit) ->
     exists entry sim,
       select_nearest cosine_distance (encode query) scope
         (cutoff_of now max_age) db = Some (entry, sim)
       /\ In entry db /\ dapp entry = scope
       /\ response_data hit = response_json entry)
  /\ (forall entry cutoff sim,
        In entry db -> dapp entry <> scope ->
        select_nearest cosine_distance (encode query) scope cutoff db
        <> Some (entry, sim))
  /\ (forall docs d,
        RAG.retrieve_relevant_documents encode cosine_distance query
          documents top_k threshold scope = Some docs ->
        In d docs ->
        exists row sim,
          In row documents /\ RAG.dapp row = scope
          /\ d = RAG.to_retrieved (row, sim)).
Proof.
  split; [|split].
  - intros db' hit H. apply lookup_hit in H.
    destruct H as (c & sim & Hsel & _ & -> & _).
    exists c, sim. split; auto.
    apply select_nearest_spec in Hsel.
    destruct Hsel as (d & _ & Hin & _).
    apply candidates_In in Hin. simpl. tauto.
  - intros entry cutoff sim _ Hne Hsel.
    apply select_nearest_spec in Hsel.
    destruct Hsel as (d & _ & Hin & _).
    apply candidates_In in Hin. tauto.
  - intros docs d. apply retrieve_scope.
Qed.



Section WithJson.
Variable dumps : json -> option string.
Variable loads : string -> option json.


(** What is stored under a key is what a get under that key returns, while
    the store is up, the entry has not expired and the payload survives
    JSON. *)
Lemma redis_set_get (now now' : Z) (store : kv) (q1 q2 : string)
    (response : json) (text : string) (ttl_hours : Z) :
  cache_key q1 = cache_key q2 ->
  dumps response = Some text -> text <> "" ->
  loads text = Some response ->
  0 < ttl_hours -> now' < now + ttl_hours * 3600 * second ->
  get_from_redis loads now'
    (_cache_in_redis dumps now (Up store) q1 response ttl_hours) q2
  = Some response.
Proof.
  intros Hk Hd Ht Hl Httl Hnow.
  unfold _cache_in_redis, get_from_redis, get, setex. rewrite Hd.
  destruct (Z.ltb_spec 0 (ttl_hours * 3600)); [|lia].
  rewrite Hk, String.eqb_refl.
  destruct (Z.ltb_spec now' (now + ttl_hours * 3600 * second)); [|lia].
  destruct (String.eqb_spec text ""); [congruence | exact Hl].
Qed.


(** X16.  The Redis tier has no notion of scope: what [save_response]
    stores for a query under any scope is what [get_from_redis], whose only
    argument is the query, returns for it. *)
Lemma exact_cache_ignores_scope (now now' : Z) (new_id : string)
    (store : kv) (query : string) (response : json) (text : string)
    (db : list (QueryCache embedding json)) (scope : string) (d : Details) :
  dumps response = Some text -> text <> "" ->
  loads text = Some response -> now' < now + 24 * hour ->
  get_from_redis loads now'
    (snd (fst (save_response encode dumps now new_id (Up store) query
                 response db scope d))) query
  = Some response.
Proof.
  intros Hd Ht Hl Hnow. cbn [save_response fst snd].
  apply redis_set_get with (text := text); auto; lia.
Qed.

End WithJson.

End WithStore.

End CacheFacts.

(** ** More on ordering *)

Module OrderFacts.
Import RAG RAGFacts.

Section Ordering.
Context {A : Type} (key : A -> Q).

Definition before (a b : A) : Prop := (key a <= key b)%Q.

Lemma insert_by_perm (x : A) (l : list A) :
  Permutation (insert_by key x l) (x :: l).
Proof.
  induction l as [|a l IH]; simpl; auto.
  destruct (Qle_bool (key x) (key a)); auto.
  rewrite IH. apply perm_swap.
Qed.

Lemma order_by_perm (l : list A) : Permutation (order_by key l) l.
Proof.
  induction l as [|a l IH]; simpl; auto.
  rewrite insert_by_perm. now constructor.
Qed.

Lemma order_by_length (l : list A) :
  List.length (order_by key l) = List.length l.
Proof. apply Permutation_length, order_by_perm. Qed.

Lemma insert_by_sorted (x : A) (l : list A) :
  StronglySorted before l -> StronglySorted before (insert_by key x l).
Proof.
  induction 1 as [|a l Hs IH Hall]; simpl.
  - repeat constructor.
  - destruct (Qle_bool (key x) (key a)) eqn:E.
    + apply Qle_bool_iff in E. constructor; [now constructor|].
      constructor; auto.
      eapply Forall_impl; [|exact Hall].
      intros b Hb. unfold before in *. eapply Qle_trans; eauto.
    + constructor; auto.
      rewrite Forall_forall. intros b Hb.
      apply (Permutation_in _ (insert_by_perm x l)) in Hb.
      destruct Hb as [<-|Hb].
      * unfold before.
        destruct (Qlt_le_dec (key a) (key x)) as [Hlt|Hle].
        -- now apply Qlt_le_weak.
        -- apply Qle_bool_iff in Hle. congruence.
      * rewrite Forall_forall in Hall. auto.
Qed.

Lemma order_by_sorted (l : list A) : StronglySorted before (order_by key l).
Proof.
  induction l as [|a l IH]; simpl; [constructor|].
  now apply insert_by_sorted.
Qed.

(** In a sorted list everything in a prefix is before everything after
    it. *)
Lemma sorted_split (n : nat) (l : list A) :
  StronglySorted before l ->
  forall a b, In a (firstn n l) -> In b (skipn n l) -> before a b.
Proof.
  intros Hs. revert n. induction Hs as [|x l Hs IH Hall]; intros n a b.
  - destruct n; simpl; tauto.
  - destruct n as [|n]; simpl; [tauto|].
    intros [<-|Ha] Hb.
    + rewrite Forall_forall in Hall. apply Hall.
      rewrite <- (firstn_skipn n l). apply in_or_app. now right.
    + now apply (IH n).
Qed.

End Ordering.

End OrderFacts.

(** ** More on the cache *)

Module CacheMoreFacts.
Import PyStr PyStrFacts Cache RAGFacts CacheFacts OrderFacts Stats.

Section WithStore.
Context {embedding json : Type}.
Variable encode : string -> embedding.
Variable cosine_distance : embedding -> embedding -> Q.




(** X2.  A hit renews the entry: the same lookup made again, at any later
    instant whose age bound still covers the instant of the hit, is a hit
    again, with a similarity at least as high. *)
Theorem lookup_hit_repeats (now now' : Z) (query : string)
    (db db' : list (QueryCache embedding json)) (scope : string)
    (threshold : Q) (max_age : option Z) (hit : CacheHit json) :
  get_cached_response encode cosine_distance now query db scope threshold
    max_age = (db', Some hit) ->
  (forall n, max_age = Some n -> n <> 0 -> now' - n * second <= now) ->
  exists db'' hit',
    get_cached_response encode cosine_distance now' query db' scope
      threshold max_age = (db'', Some hit')
    /\ (_cache_similarity hit <= _cache_similarity hit')%Q.
Proof.
  intros H Hage. apply lookup_hit in H.
  destruct H as (c & sim & Hsel & Hthr & -> & ->).
  apply select_nearest_spec in Hsel.
  destruct Hsel as (d & -> & Hin & _).
  apply candidates_In in Hin. destruct Hin as (Hin & Hs & _ & e & He & ->).
  set (db' := _update_cache_stats now (id c) db).
  assert (Hc : exists c', In c' db' /\ dapp c' = scope
                          /\ query_embedding c' = Some e
                          /\ updated_at c' = now).
  { unfold db', _update_cache_stats.
    eexists. split; [apply in_map; exact Hin|].
    rewrite String.eqb_refl. cbn. auto. }
  destruct Hc as (c' & Hin' & Hs' & He' & Hu').
  assert (Hcand : In (c', cosine_distance e (encode query))
                    (candidates cosine_distance (encode query) scope
                       (cutoff_of now' max_age) db')).
  { apply candidates_In. repeat split; auto; [|now exists e].
    apply cutoff_of_fresh. intros n Hn Hz. rewrite Hu'. now apply Hage. }
  unfold get_cached_response. cbv zeta. unfold select_nearest.
  destruct (RAG.order_by snd
              (candidates cosine_distance (encode query) scope
                 (cutoff_of now' max_age) db'))
    as [|[c2 d2] rest] eqn:E.
  - apply (order_by_In snd) in Hcand. rewrite E in Hcand. destruct Hcand.
  - pose proof (order_by_head snd _ _ _ E _ Hcand) as Hmin. simpl in Hmin.
    assert (Hle : (threshold <= 1 - d2)%Q) by (simpl in Hthr; lra).
    apply Qle_bool_iff in Hle. unfold Qltb. rewrite Hle. simpl.
    eexists. eexists. split; [reflexivity|]. simpl. lra.
Qed.

(** X3.  Storing under one scope never changes what a lookup under another
    scope returns. *)
Theorem store_is_scope_local (dumps : json -> option string)
    (now now' : Z) (new_id : string) (redis : Redis) (query query' : string)
    (response : json) (db : list (QueryCache embedding json))
    (scope scope' : string) (d : Details) (threshold : Q)
    (max_age : option Z) :
  scope <> scope' ->
  snd (get_cached_response encode cosine_distance now' query'
         (fst (fst (save_response encode dumps now new_id redis query
                      response db scope d)))
         scope' threshold max_age)
  = snd (get_cached_response encode cosine_distance now' query' db scope'
           threshold max_age).
Proof.
  intros Hne. cbn [save_response fst].
  unfold get_cached_response. cbv zeta. unfold select_nearest, candidates.
  rewrite flat_map_app. cbn [flat_map query_embedding dapp].
  destruct (String.eqb_spec scope scope'); [congruence|].
  cbn [andb]. rewrite !app_nil_r.
  match goal with |- context [RAG.order_by snd ?l] =>
    destruct (RAG.order_by snd l) as [|[c dist] rest] end;
    [reflexivity|].
  destruct (Qltb (1 - dist) threshold); reflexivity.
Qed.


(** X6.  Without a filter in force the whole table goes, every scope
    included; this is the case when no filter is given, and also when the
    pool id given is empty and the age given is 0. *)
Theorem invalidate_without_filter (now : Z)
    (db : list (QueryCache embedding json)) (pool : option string)
    (hours : option Z) :
  pool = None \/ pool = Some "" ->
  hours = None \/ hours = Some 0 ->
  invalidate_cache now db pool hours = ([], Z.of_nat (List.length db)).
Proof.
  intros Hp Hh. unfold invalidate_cache.
  assert (E : forall c : QueryCache embedding json,
             to_delete now pool hours c = true).
  { intros c. unfold to_delete.
    destruct Hp as [->| ->], Hh as [->| ->]; reflexivity. }
  f_equal.
  - induction db as [|c db IH]; simpl; auto. now rewrite E.
  - f_equal. f_equal. induction db as [|c db IH]; simpl; auto.
    rewrite E. simpl. now f_equal.
Qed.

(** X4.  The exact-match tier is bounded in time and best effort: a
    payload stored for [ttl_hours] is no longer returned once that time
    has passed, whatever was under the key before; storing for one query
    leaves what a get returns for a query with another key as it was; and
    with the server down a store does nothing and a get finds nothing. *)
Theorem exact_cache_expiry_and_frame (dumps : json -> option string)
    (loads : string -> option json) (now now' : Z) (store : kv)
    (query other : string) (response : json) (text : string)
    (ttl_hours : Z) :
  dumps response = Some text -> 0 < ttl_hours ->
  (now + ttl_hours * 3600 * second <= now' ->
   get_from_redis loads now'
     (_cache_in_redis dumps now (Up store) query response ttl_hours) query
   = None)
  /\ (cache_key other <> cache_key query ->
      get_from_redis loads now'
        (_cache_in_redis dumps now (Up store) query response ttl_hours)
        other
      = get_from_redis loads now' (Up store) other)
  /\ _cache_in_redis dumps now Down query response ttl_hours = Down
  /\ get_from_redis loads now' Down query = None.
Proof.
  intros Hd Httl. unfold _cache_in_redis, get_from_redis. rewrite Hd.
  destruct (Z.ltb_spec 0 (ttl_hours * 3600)); [|lia].
  split; [|split; [|split; reflexivity]].
  - intros Hexp. unfold get, setex. rewrite String.eqb_refl.
    destruct (Z.ltb_spec now' (now + ttl_hours * 3600 * second));
      [lia | reflexivity].
  - intros Hne. unfold get, setex.
    destruct (String.eqb_spec (cache_key other) (cache_key query));
      [congruence | reflexivity].
Qed.

Lemma column_min_spec (xs : list Z) :
  match column_min xs with
  | Some m => In m xs /\ forall x, In x xs -> m <= x
  | None => xs = []
  end.
Proof.
  induction xs as [|x xs IH]; simpl; auto.
  destruct (column_min xs) as [m|].
  - destruct IH as [Hin Hmin]. split.
    + destruct (Z.min_spec x m) as [[_ ->]|[_ ->]]; auto.
    + intros y [<-|Hy]; [lia|]. specialize (Hmin y Hy). lia.
  - subst xs. split; [now left|]. intros y [<-|[]]. lia.
Qed.

Lemma column_max_spec (xs : list Z) :
  match column_max xs with
  | Some m => In m xs /\ forall x, In x xs -> x <= m
  | None => xs = []
  end.
Proof.
  induction xs as [|x xs IH]; simpl; auto.
  destruct (column_max xs) as [m|].
  - destruct IH as [Hin Hmax]. split.
    + destruct (Z.max_spec x m) as [[_ ->]|[_ ->]]; auto.
    + intros y [<-|Hy]; [lia|]. specialize (Hmax y Hy). lia.
  - subst xs. split; [now left|]. intros y [<-|[]]. lia.
Qed.

(** X7.  The statistics of a table: the number of its rows; at most five
    rows, the five most used when there are more, listed from the most used
    down, no row left out being used more than a row listed; and the
    earliest and latest creation instants, absent exactly when the table is
    empty. *)
Theorem cache_stats_summary (db : list (QueryCache embedding json)) :
  let stats := get_cache_stats db in
  total_queries stats = Z.of_nat (List.length db)
  /\ List.length (popular_queries stats) = Nat.min 5 (List.length db)
  /\ StronglySorted (fun p q => snd q <= snd p) (popular_queries stats)
  /\ (exists rest,
        Permutation db (most_used db ++ rest)
        /\ popular_queries stats
           = map (fun c => (query_text c, use_count c)) (most_used db)
        /\ forall c r,
             In c (most_used db) -> In r rest ->
             use_count r <= use_count c)
  /\ match oldest_entry stats, newest_entry stats with
     | Some o, Some n =>
         (exists c, In c db /\ created_at c = o)
         /\ (exists c, In c db /\ created_at c = n)
         /\ forall c, In c db -> o <= created_at c <= n
     | None, None => db = []
     | _, _ => False
     end.
Proof.
  intros stats. subst stats. unfold get_cache_stats, most_used.
  cbn [total_queries popular_queries oldest_entry newest_entry].
  set (key := fun c : QueryCache embedding json => inject_Z (- use_count c)).
  pose proof (order_by_sorted key db) as Hsorted.
  pose proof (order_by_perm key db) as Hperm.
  split; [reflexivity|]. split; [|split; [|split]].
  - rewrite length_map, length_firstn, (order_by_length key). reflexivity.
  - assert (H : forall l, StronglySorted (before key) l ->
                  StronglySorted (fun p q : string * Z => snd q <= snd p)
                    (map (fun c => (query_text c, use_count c)) l)).
    { induction 1 as [|a l Hs IH Hall]; simpl; constructor; auto.
      rewrite Forall_forall in *. intros p Hp.
      apply in_map_iff in Hp. destruct Hp as [c [<- Hc]].
      specialize (Hall c Hc). unfold before, key in Hall.
      rewrite <- Zle_Qle in Hall. simpl. lia. }
    apply H.
    rewrite <- (firstn_skipn 5 (RAG.order_by key db)) in Hsorted.
    clear -Hsorted.
    induction (firstn 5 (RAG.order_by key db)) as [|a l IH];
      [constructor|].
    simpl in Hsorted. inversion Hsorted as [|? ? Hs Hall]; subst.
    constructor; auto.
    rewrite Forall_forall in *. intros x Hx. apply Hall.
    apply in_or_app. now left.
  - exists (skipn 5 (RAG.order_by key db)). split; [|split; auto].
    + rewrite firstn_skipn. now symmetry.
    + intros c r Hc Hr.
      pose proof (sorted_split key 5 _ Hsorted c r Hc Hr) as H.
      unfold before, key in H. rewrite <- Zle_Qle in H. lia.
  - pose proof (column_min_spec (map created_at db)) as Hmin.
    pose proof (column_max_spec (map created_at db)) as Hmax.
    destruct (column_min (map created_at db)) as [o|],
             (column_max (map created_at db)) as [n|].
    + destruct Hmin as [Ho Hmin], Hmax as [Hn Hmax].
      apply in_map_iff in Ho, Hn.
      destruct Ho as [co [Eo Ho]], Hn as [cn [En Hn]].
      split; [now exists co|]. split; [now exists cn|].
      intros c Hc. split; [apply Hmin | apply Hmax]; now apply in_map.
    + destruct Hmin as [Ho _]. rewrite Hmax in Ho. destruct Ho.
    + destruct Hmax as [Hn _]. rewrite Hmin in Hn. destruct Hn.
    + now destruct db.
Qed.

End WithStore.

End CacheMoreFacts.

(** ** More on retrieval *)

Module RAGMoreFacts.
Import PyStr PyStrFacts RAG RAGFacts OrderFacts Documents.

Section Filtering.
Context {A : Type} (key : A -> Q) (p : A -> bool).

(** [p], once false, stays false further down the order. *)
Hypothesis closed : forall a b, before key a b -> p b = true -> p a = true.




End Filtering.




Section WithStore.
Context {embedding json : Type}.
Variable encode : string -> embedding.
Variable cosine_distance : embedding -> embedding -> Q.











End WithStore.

Lemma total_nonneg (parts : list string) : 0 <= total parts.
Proof.
  induction parts as [|p parts IH]; [apply Z.le_refl|].
  change (total (p :: parts)) with (len p + total parts).
  unfold len. lia.
Qed.

(** The parts the loop of [build_context] collects. *)
Lemma build_parts_shape {json : Type} (documents : list (Retrieved json))
    (max_length current_length : Z) (parts : list string) :
  exists n tail,
    build_parts documents max_length current_length parts
    = (parts ++ map doc_text (firstn n documents) ++ tail)%list
    /\ (tail = []
        \/ exists doc cut,
             nth_error documents n = Some doc
             /\ tail = [cut ++ "..."]
             /\ prefix cut (doc_text doc) = true
             /\ 100 < len cut < len (doc_text doc)).
Proof.
  revert current_length parts.
  induction documents as [|doc documents IH]; intros cur parts.
  - exists 0%nat, []. simpl. rewrite app_nil_r. auto.
  - cbn [build_parts]. cbv zeta.
    generalize (eq_refl (doc_text doc)).
    generalize (doc_text doc) at 1 3 4 5 6 as text. intros text Etext.
    destruct (Z.ltb_spec max_length (cur + len text)).
    + destruct (Z.ltb_spec 100 (max_length - cur)).
      * exists 0%nat. eexists. split; [reflexivity|]. right.
        exists doc, (slice_to text (max_length - cur)).
        split; [reflexivity|]. split; [reflexivity|]. rewrite <- Etext.
        unfold slice_to. rewrite slice_nonneg by lia.
        change (Z.to_nat 0) with 0%nat. rewrite Nat.sub_0_r.
        replace (drop 0 text) with text by now destruct text.
        split.
        -- apply prefix_iff. eexists. symmetry. apply take_drop.
        -- unfold len in *. rewrite length_take. lia.
      * exists 0%nat, []. simpl. rewrite app_nil_r. auto.
    + destruct (IH (cur + len text) (parts ++ [text])%list)
        as (n & tail & E & Htail).
      exists (S n), tail. rewrite E, <- app_assoc. subst text. auto.
Qed.

(** X10.  The context is made of the blocks of the best-ranked documents,
    whole and in rank order, followed at most by one more block cut short
    and marked; when all the blocks together fit in [max_length], it is all
    of them, joined by blank lines. *)
Theorem build_context_blocks {json : Type}
    (documents : list (Retrieved json)) (max_length : Z) :
  (exists n tail,
     build_context documents max_length
     = join (Scraper.newline ++ Scraper.newline)
         (map doc_text (firstn n documents) ++ tail)
     /\ (tail = []
         \/ exists doc cut,
              nth_error documents n = Some doc
              /\ tail = [cut ++ "..."]
              /\ prefix cut (doc_text doc) = true
              /\ 100 < len cut < len (doc_text doc)))
  /\ (total (map doc_text documents) <= max_length ->
      build_context documents max_length
      = join (Scraper.newline ++ Scraper.newline)
          (map doc_text documents)).
Proof.
  split.
  - destruct (build_parts_shape documents max_length 0 [])
      as (n & tail & E & Htail).
    destruct documents as [|doc documents].
    + exists 0%nat, []. auto.
    + exists n, tail. unfold build_context. rewrite E. auto.
  - intros Hfit. unfold build_context.
    destruct documents as [|doc documents]; [reflexivity|]. f_equal.
    assert (H : forall docs cur parts,
               cur + total (map doc_text docs) <= max_length ->
               build_parts (json := json) docs max_length cur parts
               = (parts ++ map doc_text docs)%list).
    { induction docs as [|d docs IH]; intros cur parts Hc.
      - simpl. now rewrite app_nil_r.
      - change (total (map doc_text (d :: docs)))
          with (len (doc_text d) + total (map doc_text docs)) in Hc.
        pose proof (total_nonneg (map doc_text docs)).
        cbn [build_parts map]. cbv zeta.
        destruct (Z.ltb_spec max_length (cur + len (doc_text d))); [lia|].
        rewrite IH by lia. now rewrite <- app_assoc. }
    now rewrite H.
Qed.

End RAGMoreFacts.

(** ** More on the classifier and on the early refusal *)

Module ClassifierMoreFacts.
Import PyStr PyStrFacts QueryClassifier ClassifierFacts.

(** The first entry of a list that occurs in the query. *)
Definition first_occurring (entries : list string) (query entry : string)
    : Prop :=
  exists earlier later,
    entries = (earlier ++ entry :: later)%list
    /\ occurs entry query
    /\ forall e, In e earlier -> ~ occurs e query.

Lemma contains_occurs (sub s : string) :
  contains sub s = true <-> occurs sub s.
Proof. apply contains_iff. Qed.

Lemma first_currency_spec (cs : list string) (query : string) :
  match first_currency cs query with
  | Some c => exists k, first_occurring cs query k /\ c = upper k
  | None => ~ mentions cs query
  end.
Proof.
  induction cs as [|k cs IH]; simpl.
  - intros (kw & [] & _).
  - destruct (contains k query) eqn:E.
    + exists k. split; [|reflexivity]. exists [], cs.
      repeat split; [now apply contains_occurs | intros e []].
    + assert (Hk : ~ occurs k query).
      { intros H. apply contains_occurs in H. congruence. }
      destruct (first_currency cs query) as [c|].
      * destruct IH as (k' & (earlier & later & -> & Ho & Hnone) & ->).
        exists k'. split; [|reflexivity].
        exists (k :: earlier), later. repeat split; auto.
        intros e [<-|He]; auto.
      * intros (kw & [<-|Hin] & Ho); [auto|].
        apply IH. now exists kw.
Qed.

(** X14.  The currency of a query is the first entry of the vocabulary
    (usdc, usdt, usd, sol, eth, btc, in this order) that occurs in it, in
    upper case, and there is none exactly when no entry occurs; so it is
    one of six codes, and a query in which "usdc" occurs always gets
    "USDC". *)
Theorem extract_currency_first (query : string) :
  (forall c,
     _extract_currency query = Some c ->
     (exists k, first_occurring currencies query k /\ c = upper k)
     /\ In c ["USDC"; "USDT"; "USD"; "SOL"; "ETH"; "BTC"])
  /\ (_extract_currency query = None <-> ~ mentions currencies query)
  /\ (occurs "usdc" query -> _extract_currency query = Some "USDC").
Proof.
  unfold _extract_currency.
  pose proof (first_currency_spec currencies query) as H.
  split; [|split].
  - intros c E. rewrite E in H. split; [exact H|].
    destruct H as (k & (earlier & later & Ecs & _) & ->).
    assert (Hin : In k currencies)
      by (rewrite Ecs; apply in_or_app; right; now left).
    simpl in Hin.
    repeat (destruct Hin as [<-|Hin]; [simpl; tauto|]). destruct Hin.
  - destruct (first_currency currencies query) as [c|].
    + split; [discriminate|]. intros Hn. exfalso. apply Hn.
      destruct H as (k & (earlier & later & Ecs & Ho & _) & _).
      exists k. split; auto. rewrite Ecs. apply in_or_app. right. now left.
    + tauto.
  - intros Ho. apply contains_occurs in Ho. simpl. now rewrite Ho.
Qed.

Lemma any_keyword_count (kws : list string) (query : string) :
  any_keyword kws query = true -> (1 <= count_keywords kws query)%nat.
Proof.
  unfold any_keyword, count_keywords.
  induction kws as [|kw kws IH]; simpl; [discriminate|].
  destruct (contains kw query); simpl; [lia | exact IH].
Qed.

Lemma confidence_of_typed (m : nat) (pool amt : bool) :
  (1 <= m <= 19)%nat ->
  PrimFloat.leb (0.5 + tenth) (confidence_of (Some m) pool amt) = true.
Proof.
  intros Hm. destruct m as [|m]; [lia|].
  do 19 (destruct m as [|m];
         [destruct pool, amt; vm_compute; reflexivity|]).
  lia.
Qed.

Section WithFloatParser.
Variable py_float : string -> option float.

Lemma calculate_confidence_exact (query : string) (qt : QueryType) :
  _calculate_confidence py_float query qt
  = confidence_of
      match qt with
      | EARNINGS => Some (count_keywords EARNINGS_KEYWORDS query)
      | RISK => Some (count_keywords RISK_KEYWORDS query)
      | TECHNICAL => Some (count_keywords TECHNICAL_KEYWORDS query)
      | _ => None
      end
      (truthy_str (_extract_pool_id query))
      (truthy_float (_extract_amount py_float query)).
Proof. destruct qt; reflexivity. Qed.

(** X18.  The confidence tells a typed query from a general one: a query
    classified as earnings, risk or technical has a confidence of at least
    0.5 + 0.1, since one keyword at least was counted, and a general query
    has one of at most 0.5 + 0.1 + 0.1, since only a pool and an amount can
    add to it. *)
Theorem confidence_by_type (query : string) (pool : option string) :
  let c := classify py_float query pool in
  (query_type c <> GENERAL ->
   PrimFloat.leb (0.5 + tenth) (confidence c) = true)
  /\ (query_type c = GENERAL ->
      PrimFloat.leb (confidence c) (0.5 + tenth + tenth) = true).
Proof.
  cbv zeta. cbn [classify query_type confidence].
  rewrite calculate_confidence_exact. unfold _determine_type.
  set (q := lower query).
  destruct (any_keyword EARNINGS_KEYWORDS q) eqn:E.
  { split; [|discriminate]. intros _. apply confidence_of_typed.
    pose proof (any_keyword_count _ _ E).
    pose proof (count_keywords_le EARNINGS_KEYWORDS q) as Hle.
    simpl in Hle. lia. }
  destruct (any_keyword RISK_KEYWORDS q) eqn:R.
  { split; [|discriminate]. intros _. apply confidence_of_typed.
    pose proof (any_keyword_count _ _ R).
    pose proof (count_keywords_le RISK_KEYWORDS q) as Hle.
    simpl in Hle. lia. }
  destruct (any_keyword TECHNICAL_KEYWORDS q) eqn:T.
  { split; [|discriminate]. intros _. apply confidence_of_typed.
    pose proof (any_keyword_count _ _ T).
    pose proof (count_keywords_le TECHNICAL_KEYWORDS q) as Hle.
    simpl in Hle. lia. }
  split; [congruence|]. intros _.
  destruct (truthy_str (_extract_pool_id q)),
           (truthy_float (_extract_amount py_float q));
    vm_compute; reflexivity.
Qed.

End WithFloatParser.

End ClassifierMoreFacts.

Module AskFacts.
Import PyStr PyStrFacts QueryClassifier ClassifierMoreFacts Ask.

Lemma first_mention_spec (protocols : list string)
    (query current : string) :
  match first_mention protocols query current with
  | Some p =>
      exists earlier later,
        protocols = (earlier ++ p :: later)%list
        /\ occurs p query /\ p <> current
        /\ forall e, In e earlier -> occurs e query -> e = current
  | None => forall p, In p protocols -> occurs p query -> p = current
  end.
Proof.
  induction protocols as [|p protocols IH]; simpl.
  - intros p [].
  - destruct (contains p query) eqn:Ec; simpl.
    + destruct (String.eqb_spec p current) as [->|Hne]; simpl.
      * destruct (first_mention protocols query current) as [p'|].
        -- destruct IH as (earlier & later & -> & Ho & Hne & Hall).
           exists (current :: earlier), later. repeat split; auto.
           intros e [<-|He]; auto.
        -- intros p' [<-|Hin]; auto.
      * exists [], protocols. repeat split; auto.
        -- now apply contains_occurs.
        -- intros e [].
    + assert (Hp : ~ occurs p query).
      { intros H. apply contains_occurs in H. congruence. }
      destruct (first_mention protocols query current) as [p'|].
      * destruct IH as (earlier & later & -> & Ho & Hne & Hall).
        exists (p :: earlier), later. repeat split; auto.
        intros e [<-|He]; [tauto | auto].
      * intros p' [<-|Hin]; [tauto | auto].
Qed.

(** X21.  A question is refused before anything else is done exactly when
    a listed protocol other than the dapp of the request occurs in it,
    letter case aside; the protocol found is the first such one of the
    list, so a question on the dapp's own page about that dapp alone is
    not refused. *)
Theorem refusal_iff_other_protocol (query dapp : string) :
  (mentioned_protocol query dapp <> None
   <-> exists p,
         In p other_protocols /\ occurs p (lower query) /\ p <> lower dapp)
  /\ (forall p,
        mentioned_protocol query dapp = Some p ->
        exists earlier later,
          other_protocols = (earlier ++ p :: later)%list
          /\ occurs p (lower query) /\ p <> lower dapp
          /\ forall e,
               In e earlier -> occurs e (lower query) -> e = lower dapp).
Proof.
  unfold mentioned_protocol.
  pose proof (first_mention_spec other_protocols (lower query) (lower dapp))
    as H.
  destruct (first_mention other_protocols (lower query) (lower dapp))
    as [p|]; split.
  - split; [|discriminate]. intros _.
    destruct H as (earlier & later & E & Ho & Hne & _).
    exists p. repeat split; auto.
    rewrite E. apply in_or_app. right. now left.
  - intros p' E. injection E as <-. exact H.
  - split; [congruence|]. intros (p & Hin & Ho & Hne).
    elim Hne. now apply H.
  - discriminate.
Qed.

End AskFacts.

(** ** The matcher *)

Module ReFacts.
Import PyStr PyStrFacts Re.

(** The strings a pattern matches, and the strings a group of it may
    capture. *)
Inductive lang : regex -> string -> Prop :=
| L_chr (p : ascii -> bool) (c : ascii) :
    p c = true -> lang (Chr p) (String c EmptyString)
| L_eps : lang Eps EmptyString
| L_seq (r1 r2 : regex) (s1 s2 : string) :
    lang r1 s1 -> lang r2 s2 -> lang (Seq r1 r2) (s1 ++ s2)
| L_alt_l (r1 r2 : regex) (s : string) : lang r1 s -> lang (Alt r1 r2) s
| L_alt_r (r1 r2 : regex) (s : string) : lang r2 s -> lang (Alt r1 r2) s
| L_star_nil (r : regex) : lang (Star r) EmptyString
| L_star_cons (r : regex) (s1 s2 : string) :
    lang r s1 -> lang (Star r) s2 -> lang (Star r) (s1 ++ s2)
| L_group (r : regex) (s : string) : lang r s -> lang (Group r) s.

Inductive captured : regex -> string -> Prop :=
| C_here (r : regex) (t : string) : lang r t -> captured (Group r) t
| C_inside (r : regex) (t : string) : captured r t -> captured (Group r) t
| C_seq_l (r1 r2 : regex) (t : string) :
    captured r1 t -> captured (Seq r1 r2) t
| C_seq_r (r1 r2 : regex) (t : string) :
    captured r2 t -> captured (Seq r1 r2) t
| C_alt_l (r1 r2 : regex) (t : string) :
    captured r1 t -> captured (Alt r1 r2) t
| C_alt_r (r1 r2 : regex) (t : string) :
    captured r2 t -> captured (Alt r1 r2) t
| C_star (r : regex) (t : string) : captured r t -> captured (Star r) t.

Lemma append_assoc (a b c : string) : (a ++ b) ++ c = a ++ b ++ c.
Proof. induction a as [|x a IH]; simpl; [reflexivity | now rewrite IH]. Qed.

Lemma append_nil_r (a : string) : a ++ "" = a.
Proof. induction a as [|x a IH]; simpl; [reflexivity | now rewrite IH]. Qed.

Lemma take_app_length (a b : string) :
  take (String.length (a ++ b) - String.length b) (a ++ b) = a.
Proof.
  rewrite length_append.
  replace (String.length a + String.length b - String.length b)%nat
    with (String.length a) by lia.
  induction a as [|x a IH]; simpl.
  - now destruct b.
  - now rewrite IH.
Qed.

(** What the group holds after a match: what it held before, or a string
    the pattern may capture. *)
Definition group_after (r : regex) (g g' : option string) : Prop :=
  g' = g \/ exists t, g' = Some t /\ captured r t.

(** The matcher is sound: where it succeeds, it has split the input into a
    string the pattern matches and a rest the continuation accepts. *)
Lemma run_sound {A : Type} (r : regex) :
  forall (s : string) (g : option string)
         (k : string -> option string -> option A) (x : A),
    run r s g k = Some x ->
    exists s1 s2 g',
      s = s1 ++ s2 /\ lang r s1 /\ k s2 g' = Some x /\ group_after r g g'.
Proof.
  induction r as [p| |r1 IH1 r2 IH2|r1 IH1 r2 IH2|r IH|r IH];
    intros s g k x H; cbn [run] in H.
  - destruct s as [|c s]; [discriminate|].
    destruct (p c) eqn:Ep; [|discriminate].
    exists (String c ""), s, g. repeat split; auto.
    + now constructor.
    + now left.
  - exists "", s, g. repeat split; auto; [constructor | now left].
  - apply IH1 in H. destruct H as (s1 & s2 & g1 & -> & L1 & H & G1).
    apply IH2 in H. destruct H as (s3 & s4 & g2 & -> & L2 & H & G2).
    exists (s1 ++ s3), s4, g2. rewrite append_assoc.
    repeat split; auto; [now constructor|].
    destruct G2 as [->|(t & -> & Ct)].
    + destruct G1 as [->|(t & -> & Ct)]; [now left|].
      right. exists t. split; auto. now apply C_seq_l.
    + right. exists t. split; auto. now apply C_seq_r.
  - destruct (run r1 s g k) as [y|] eqn:E1.
    + injection H as <-. apply IH1 in E1.
      destruct E1 as (s1 & s2 & g1 & -> & L1 & H & G1).
      exists s1, s2, g1. repeat split; auto; [now apply L_alt_l|].
      destruct G1 as [->|(t & -> & Ct)]; [now left|].
      right. exists t. split; auto. now apply C_alt_l.
    + apply IH2 in H. destruct H as (s1 & s2 & g1 & -> & L1 & H & G1).
      exists s1, s2, g1. repeat split; auto; [now apply L_alt_r|].
      destruct G1 as [->|(t & -> & Ct)]; [now left|].
      right. exists t. split; auto. now apply C_alt_r.
  - revert H. generalize (String.length s) as n. intros n. revert s g.
    induction n as [|n IHn]; intros s g H.
    + exists "", s, g. repeat split; auto; [constructor | now left].
    + match type of H with
      | match ?m with _ => _ end = _ => destruct m as [y|] eqn:E
      end.
      * injection H as <-. apply IH in E.
        destruct E as (s1 & s2 & g1 & -> & L1 & H & G1).
        destruct (String.length s2 <? String.length (s1 ++ s2))%nat;
          [|discriminate].
        apply IHn in H. destruct H as (s3 & s4 & g2 & -> & L2 & H & G2).
        exists (s1 ++ s3), s4, g2. rewrite append_assoc.
        repeat split; auto; [now constructor|].
        destruct G2 as [->|(t & -> & Ct)].
        -- destruct G1 as [->|(t & -> & Ct)]; [now left|].
           right. exists t. split; auto. now apply C_star.
        -- right. exists t. split; auto.
      * exists "", s, g. repeat split; auto; [constructor | now left].
  - apply IH in H. destruct H as (s1 & s2 & g1 & -> & L1 & H & _).
    rewrite take_app_length in H.
    exists s1, s2, (Some s1). repeat split; auto; [now constructor|].
    right. exists s1. split; auto. now apply C_here.
Qed.

Lemma match_at_sound (r : regex) (s : string) (m : rmatch) :
  match_at r s = Some m ->
  exists rest,
    s = group0 m ++ rest /\ lang r (group0 m)
    /\ group_after r None (group1 m).
Proof.
  unfold match_at. intros H. apply run_sound in H.
  destruct H as (s1 & s2 & g' & -> & L & H & G).
  injection H as <-. cbn [group0 group1]. rewrite take_app_length.
  now exists s2.
Qed.

(** [search] finds a match somewhere in the string. *)
Lemma search_sound (r : regex) (s : string) (m : rmatch) :
  search r s = Some m ->
  exists pre rest,
    s = pre ++ group0 m ++ rest /\ lang r (group0 m)
    /\ group_after r None (group1 m).
Proof.
  induction s as [|c s IH]; cbn [search].
  - destruct (match_at r "") as [m'|] eqn:E; [|discriminate].
    intros H; injection H as <-. apply match_at_sound in E.
    destruct E as (rest & E & L & G). now exists "", rest.
  - destruct (match_at r (String c s)) as [m'|] eqn:E.
    + intros H; injection H as <-. apply match_at_sound in E.
      destruct E as (rest & E & L & G). now exists "", rest.
    + intros H. apply IH in H. destruct H as (pre & rest & -> & L & G).
      now exists (String c pre), rest.
Qed.

(** [search] misses only when the pattern matches at no position. *)
Lemma search_none (r : regex) (s : string) :
  search r s = None ->
  forall pre t, s = pre ++ t -> match_at r t = None.
Proof.
  induction s as [|c s IH]; cbn [search]; intros H pre t E.
  - destruct pre; [|discriminate]. simpl in E. subst t.
    now destruct (match_at r "").
  - destruct (match_at r (String c s)) eqn:Em; [discriminate|].
    destruct pre as [|c' pre]; simpl in E.
    + now subst t.
    + injection E as _ E. now apply (IH H pre).
Qed.

Lemma lang_lit (a s : string) : lang (lit a) s <-> s = a.
Proof.
  revert s. induction a as [|c a IH]; intros s; simpl; split.
  - now inversion 1.
  - intros ->. constructor.
  - inversion 1 as [| |? ? ? ? H1 H2| | | | |]; subst.
    inversion H1 as [? ? Hc| | | | | | |]; subst.
    apply Ascii.eqb_eq in Hc. subst. simpl. f_equal. now apply IH.
  - intros ->. change (String c a) with (String c "" ++ a).
    constructor; [|now apply IH].
    constructor. apply Ascii.eqb_refl.
Qed.

(** A literal is matched exactly where it is a prefix. *)
Lemma run_lit {A : Type} (a s : string) (g : option string)
    (k : string -> option string -> option A) :
  run (lit a) s g k
  = if prefix a s then k (drop (String.length a) s) g else None.
Proof.
  revert s. induction a as [|c a IH]; intros s.
  - destruct s; reflexivity.
  - destruct s as [|c' s]; [reflexivity|].
    cbn [lit run chr String.length drop prefix].
    destruct (ascii_dec c c') as [->|Hne].
    + rewrite Ascii.eqb_refl. apply IH.
    + destruct (Ascii.eqb_spec c c'); [congruence | reflexivity].
Qed.

End ReFacts.

(** ** What the classifier extracts *)

Module ExtractionFacts.
Import PyStr PyStrFacts Re ReFacts QueryClassifier ClassifierFacts
       ClassifierMoreFacts.

(** The bodies of the groups of a pattern, and whether every match of the
    pattern goes through a group. *)
Fixpoint groups (r : regex) : list regex :=
  match r with
  | Chr _ | Eps => []
  | Seq r1 r2 | Alt r1 r2 => groups r1 ++ groups r2
  | Star r' => groups r'
  | Group r' => r' :: groups r'
  end.

Fixpoint sets_group (r : regex) : bool :=
  match r with
  | Chr _ | Eps | Star _ => false
  | Seq r1 r2 => sets_group r1 || sets_group r2
  | Alt r1 r2 => sets_group r1 && sets_group r2
  | Group _ => true
  end.

Lemma captured_groups (r : regex) (t : string) :
  captured r t -> exists body, In body (groups r) /\ lang body t.
Proof.
  induction 1 as [r t L|r t C IH|r1 r2 t C IH|r1 r2 t C IH|r1 r2 t C IH
                  |r1 r2 t C IH|r t C IH]; simpl.
  - exists r. auto.
  - destruct IH as (b & Hb & L). exists b. auto.
  - destruct IH as (b & Hb & L). exists b. split; auto.
    apply in_or_app. auto.
  - destruct IH as (b & Hb & L). exists b. split; auto.
    apply in_or_app. auto.
  - destruct IH as (b & Hb & L). exists b. split; auto.
    apply in_or_app. auto.
  - destruct IH as (b & Hb & L). exists b. split; auto.
    apply in_or_app. auto.
  - exact IH.
Qed.

(** A group that is set stays set, and a pattern that goes through a group
    sets it. *)
Lemma run_keeps_group {A : Type} (r : regex) :
  forall (s : string) (g : option string)
         (k : string -> option string -> option A) (x : A),
    run r s g k = Some x ->
    exists s2 g',
      k s2 g' = Some x
      /\ (g <> None \/ sets_group r = true -> g' <> None).
Proof.
  induction r as [p| |r1 IH1 r2 IH2|r1 IH1 r2 IH2|r IH|r IH];
    intros s g k x H; cbn [run] in H.
  - destruct s as [|c s]; [discriminate|].
    destruct (p c); [|discriminate].
    exists s, g. split; auto. intros [Hg|Hs]; [auto | discriminate].
  - exists s, g. split; auto. intros [Hg|Hs]; [auto | discriminate].
  - apply IH1 in H. destruct H as (s2 & g1 & H & G1).
    apply IH2 in H. destruct H as (s4 & g2 & H & G2).
    exists s4, g2. split; auto. simpl. rewrite orb_true_iff.
    intros [Hg|[Hs|Hs]]; apply G2; auto.
  - destruct (run r1 s g k) as [y|] eqn:E1.
    + injection H as <-. apply IH1 in E1.
      destruct E1 as (s2 & g1 & H & G1). exists s2, g1. split; auto.
      simpl. rewrite andb_true_iff. intros [Hg|[Hs _]]; apply G1; auto.
    + apply IH2 in H. destruct H as (s2 & g1 & H & G1).
      exists s2, g1. split; auto.
      simpl. rewrite andb_true_iff. intros [Hg|[_ Hs]]; apply G1; auto.
  - revert H. generalize (String.length s) as n. intros n. revert s g.
    induction n as [|n IHn]; intros s g H.
    + exists s, g. split; auto. intros [Hg|Hs]; [auto | discriminate].
    + match type of H with
      | match ?m with _ => _ end = _ => destruct m as [y|] eqn:E
      end.
      * injection H as <-. apply IH in E.
        destruct E as (s2 & g1 & H & G1).
        destruct (String.length s2 <? String.length s)%nat;
          [|discriminate].
        apply IHn in H. destruct H as (s4 & g2 & H & G2).
        exists s4, g2. split; auto.
        intros [Hg|Hs]; [|discriminate]. apply G2. left. apply G1. auto.
      * exists s, g. split; auto. intros [Hg|Hs]; [auto | discriminate].
  - apply IH in H. destruct H as (s2 & g1 & H & _).
    eexists. eexists. split; [exact H|]. discriminate.
Qed.

(** What a successful [search] tells: the match occurs in the string and is
    in the language of the pattern; the group, when the pattern goes
    through one, holds a string one of its groups matches. *)
Lemma search_match (r : regex) (s : string) (m : rmatch) :
  search r s = Some m ->
  occurs (group0 m) s /\ lang r (group0 m)
  /\ (sets_group r = true ->
      exists t body,
        group1 m = Some t /\ In body (groups r) /\ lang body t).
Proof.
  intros H. pose proof (search_sound r s m H) as (pre & rest & E & L & G).
  split; [now exists pre, rest|]. split; [exact L|]. intros Hs.
  assert (Hset : group1 m <> None).
  { clear -H Hs. induction s as [|c s IH]; cbn [search] in H.
    - destruct (match_at r "") as [m'|] eqn:E; [|discriminate].
      injection H as <-. unfold match_at in E.
      apply run_keeps_group in E. destruct E as (s2 & g' & E & G).
      injection E as <-. auto.
    - destruct (match_at r (String c s)) as [m'|] eqn:E; [|auto].
      injection H as <-. unfold match_at in E.
      apply run_keeps_group in E. destruct E as (s2 & g' & E & G).
      injection E as <-. auto. }
  destruct G as [G|(t & G & C)]; [congruence|].
  apply captured_groups in C. destruct C as (body & Hb & Lb).
  now exists t, body.
Qed.

(** *** Pool identifiers *)

Definition pools : list (string * string) :=
  [("allez", "usdc"); ("main", "usdc"); ("jito", "sol"); ("usdt", "main")].

(** The ways a pool may be written: with a hyphen, with a space, or in one
    word. *)
Definition spellings (pool : string * string) : list string :=
  [fst pool ++ "-" ++ snd pool; fst pool ++ " " ++ snd pool;
   fst pool ++ snd pool].

Definition normalised (x : string) : string :=
  lower (replace_char " " "-" x).

Lemma lang_pool_pattern (a b s : string) :
  lang (pool_pattern a b) s -> In s (spellings (a, b)).
Proof.
  unfold pool_pattern, opt. intros H.
  inversion H as [| |? ? sa s2 La L2| | | | |]; subst.
  apply lang_lit in La. subst sa.
  inversion L2 as [| |? ? ss sb Ls Lb| | | | |]; subst.
  apply lang_lit in Lb. subst sb. simpl.
  inversion Ls as [| | |? ? ? Lc|? ? ? Le| | |]; subst.
  - inversion Lc as [? c Hc| | | | | | |]; subst.
    apply orb_true_iff in Hc.
    destruct Hc as [Hc|Hc]; apply Ascii.eqb_eq in Hc; subst; auto.
  - inversion Le; subst. auto.
Qed.

Lemma drop_app_length (a r : string) : drop (String.length a) (a ++ r) = r.
Proof.
  induction a as [|c a IH]; simpl; [now destruct r | exact IH].
Qed.

Lemma prefix_app (a r : string) : prefix a (a ++ r) = true.
Proof. apply prefix_iff. now exists r. Qed.

Lemma pool_pattern_complete (a b x post : string) :
  In x (spellings (a, b)) -> match_at (pool_pattern a b) (x ++ post) <> None.
Proof.
  intros Hx. unfold match_at, pool_pattern, opt.
  cbn [run]. rewrite run_lit.
  assert (E : exists r, x ++ post = a ++ r
                        /\ (r = b ++ post
                            \/ exists c,
                                 (Ascii.eqb c "-" || Ascii.eqb c " ") = true
                                 /\ r = String c (b ++ post))).
  { simpl in Hx. destruct Hx as [<-|[<-|[<-|[]]]];
      rewrite !append_assoc; eexists; split; try reflexivity.
    - right. exists "-"%char. split; reflexivity.
    - right. exists " "%char. split; reflexivity.
    - now left. }
  destruct E as (r & -> & Hr). rewrite prefix_app, drop_app_length.
  destruct Hr as [->|(c & Hc & ->)].
  - match goal with
    | |- match ?m with _ => _ end <> None => destruct m; [discriminate|]
    end.
    rewrite run_lit, prefix_app. discriminate.
  - cbn [run]. rewrite Hc, run_lit, prefix_app. discriminate.
Qed.

Lemma first_pool_spec (pairs : list (string * string)) (query : string) :
  match first_pool (map (fun p => pool_pattern (fst p) (snd p)) pairs)
          query with
  | Some id =>
      exists earlier pool later x,
        pairs = (earlier ++ pool :: later)%list
        /\ In x (spellings pool) /\ occurs x query /\ id = normalised x
        /\ forall pool' x',
             In pool' earlier -> In x' (spellings pool') ->
             ~ occurs x' query
  | None =>
      forall pool x, In pool pairs -> In x (spellings pool) ->
                     ~ occurs x query
  end.
Proof.
  induction pairs as [|[a b] pairs IH]; cbn [map first_pool fst snd].
  - intros pool x [].
  - destruct (search (pool_pattern a b) query) as [m|] eqn:E.
    + apply search_match in E. destruct E as (Ho & L & _).
      apply lang_pool_pattern in L.
      exists [], (a, b), pairs, (group0 m).
      split; [reflexivity|]. split; [exact L|]. split; [exact Ho|].
      split; [reflexivity|]. intros pool' x' [].
    + assert (Hnone : forall x, In x (spellings (a, b)) ->
                                ~ occurs x query).
      { intros x Hx (pre & post & Eq).
        apply (pool_pattern_complete a b x post Hx).
        now apply (search_none _ _ E pre). }
      destruct (first_pool
                  (map (fun p => pool_pattern (fst p) (snd p)) pairs) query)
        as [id|].
      * destruct IH as (earlier & pool & later & x & -> & Hx & Ho & -> & Hn).
        exists ((a, b) :: earlier), pool, later, x.
        split; [reflexivity|]. split; [exact Hx|]. split; [exact Ho|].
        split; [reflexivity|].
        intros pool' x' [<-|Hin] Hx'; [now apply Hnone | now apply (Hn pool')].
      * intros pool x [<-|Hin] Hx; [now apply Hnone | now apply (IH pool)].
Qed.

(** X15.  A pool id is extracted exactly when one of the four pools is
    written in the query, with a hyphen, a space or nothing between its two
    words; it is then that spelling of the first such pool of the list,
    with a hyphen for the space: one of eight strings, never one with a
    space, and the one-word spelling comes back without a hyphen.  So a
    query that writes the allez pool gets "allez-usdc" or "allezusdc",
    whatever other pool it names. *)
Theorem extract_pool_id_forms (query : string) :
  (forall id,
     _extract_pool_id query = Some id ->
     (exists earlier pool later x,
        pools = (earlier ++ pool :: later)%list
        /\ In x (spellings pool) /\ occurs x query /\ id = normalised x
        /\ forall pool' x',
             In pool' earlier -> In x' (spellings pool') ->
             ~ occurs x' query)
     /\ In id ["allez-usdc"; "allezusdc"; "main-usdc"; "mainusdc";
               "jito-sol"; "jitosol"; "usdt-main"; "usdtmain"])
  /\ (_extract_pool_id query = None
      <-> forall pool x, In pool pools -> In x (spellings pool) ->
                         ~ occurs x query)
  /\ (forall x,
        In x (spellings ("allez", "usdc")) -> occurs x query ->
        _extract_pool_id query = Some "allez-usdc"
        \/ _extract_pool_id query = Some "allezusdc").
Proof.
  unfold _extract_pool_id.
  change pool_patterns
    with (map (fun p => pool_pattern (fst p) (snd p)) pools).
  pose proof (first_pool_spec pools query) as H.
  destruct (first_pool (map (fun p => pool_pattern (fst p) (snd p)) pools)
              query) as [id|].
  - assert (Hforms :
              forall earlier pool later x,
                pools = (earlier ++ pool :: later)%list ->
                In x (spellings pool) ->
                In (normalised x)
                  ["allez-usdc"; "allezusdc"; "main-usdc"; "mainusdc";
                   "jito-sol"; "jitosol"; "usdt-main"; "usdtmain"]).
    { intros earlier pool later x E Hx.
      assert (Hin : In pool pools)
        by (rewrite E; apply in_or_app; right; now left).
      simpl in Hin.
      repeat (destruct Hin as [<-|Hin];
              [simpl in Hx;
               repeat (destruct Hx as [<-|Hx]; [vm_compute; tauto|]);
               destruct Hx|]).
      destruct Hin. }
    split; [|split].
    + intros id' E. injection E as <-. split; [exact H|].
      destruct H as (earlier & pool & later & x & E & Hx & _ & -> & _).
      now apply (Hforms earlier pool later x).
    + split; [discriminate|]. intros Hn. exfalso.
      destruct H as (earlier & pool & later & x & E & Hx & Ho & _).
      apply (Hn pool x); auto.
      rewrite E. apply in_or_app. right. now left.
    + intros x Hx Ho.
      destruct H as (earlier & pool & later & x' & E & Hx' & Ho' & -> & Hn).
      destruct earlier as [|first earlier].
      * injection E as <- _. simpl in Hx'.
        repeat (destruct Hx' as [<-|Hx']; [vm_compute; tauto|]).
        destruct Hx'.
      * injection E as <- _. exfalso.
        apply (Hn ("allez", "usdc") x); auto. now left.
  - split; [discriminate|]. split; [tauto|].
    intros x Hx Ho. exfalso. apply (H ("allez", "usdc") x); auto.
    now left.
Qed.

End ExtractionFacts.

(** *** Amounts *)

Module AmountFacts.
Import PyStr PyStrFacts Re ReFacts QueryClassifier ExtractionFacts.

Definition is_digit (c : ascii) : bool :=
  let n := N_of_ascii c in ((48 <=? n) && (n <=? 57))%N.

Fixpoint all_digits (s : string) : bool :=
  match s with
  | EmptyString => true
  | String c s' => is_digit c && all_digits s'
  end.

(** One or more decimal digits. *)
Definition digits (s : string) : Prop := s <> "" /\ all_digits s = true.

(** A decimal literal: digits, then possibly a point and digits. *)
Definition decimal (s : string) : Prop :=
  exists whole, digits whole
    /\ (s = whole \/ exists frac, digits frac /\ s = whole ++ "." ++ frac).

Definition number_body : regex :=
  Seq (plus digit)
      (Seq (Star (Seq (chr ",") (Seq digit (Seq digit digit))))
           (opt (Seq (chr ".") (plus digit)))).

Lemma all_digits_app (a b : string) :
  all_digits (a ++ b) = all_digits a && all_digits b.
Proof.
  induction a as [|c a IH]; simpl; [reflexivity|].
  now rewrite IH, andb_assoc.
Qed.

Lemma remove_char_app (c : ascii) (a b : string) :
  remove_char c (a ++ b) = remove_char c a ++ remove_char c b.
Proof.
  induction a as [|d a IH]; simpl; [reflexivity|].
  destruct (Ascii.eqb d c); simpl; now rewrite IH.
Qed.

Lemma remove_comma_digits (s : string) :
  all_digits s = true -> remove_char "," s = s.
Proof.
  induction s as [|c s IH]; simpl; [reflexivity|].
  intros H. apply andb_true_iff in H. destruct H as [Hc Hs].
  destruct (Ascii.eqb_spec c ","); [subst; discriminate|].
  now rewrite IH.
Qed.

Lemma lang_digit (s : string) :
  lang digit s -> exists c, s = String c "" /\ is_digit c = true.
Proof.
  unfold digit. intros H. inversion H; subst. eauto.
Qed.

Lemma lang_star_digit (s : string) :
  lang (Star digit) s -> all_digits s = true.
Proof.
  intros H. remember (Star digit) as r eqn:Er.
  induction H as [| | | | | |r' s1 s2 L1 _ L2 IH2|]; try discriminate.
  - reflexivity.
  - injection Er as ->. apply lang_digit in L1.
    destruct L1 as (c & -> & Hc). simpl. rewrite Hc. now apply IH2.
Qed.

Lemma lang_plus_digit (s : string) : lang (plus digit) s -> digits s.
Proof.
  unfold plus. intros H. inversion H as [| |? ? s1 s2 L1 L2| | | | |]; subst.
  apply lang_digit in L1. destruct L1 as (c & -> & Hc).
  apply lang_star_digit in L2. split; [discriminate|].
  simpl. now rewrite Hc.
Qed.

Lemma lang_thousands (s : string) :
  lang (Star (Seq (chr ",") (Seq digit (Seq digit digit)))) s ->
  all_digits (remove_char "," s) = true.
Proof.
  intros H.
  remember (Star (Seq (chr ",") (Seq digit (Seq digit digit)))) as r eqn:Er.
  induction H as [| | | | | |r' s1 s2 L1 _ L2 IH2|]; try discriminate.
  - reflexivity.
  - injection Er as ->.
    inversion L1 as [| |? ? sc s3 Lc L3| | | | |]; subst.
    inversion Lc as [? c Hc| | | | | | |]; subst.
    apply Ascii.eqb_eq in Hc. subst c.
    inversion L3 as [| |? ? d1 s4 D1 L4| | | | |]; subst.
    inversion L4 as [| |? ? d2 d3 D2 D3| | | | |]; subst.
    apply lang_digit in D1, D2, D3.
    destruct D1 as (c1 & -> & H1), D2 as (c2 & -> & H2),
             D3 as (c3 & -> & H3).
    rewrite remove_char_app, all_digits_app, IH2 by reflexivity.
    rewrite andb_true_r.
    change (all_digits (remove_char ","
              (String c1 (String c2 (String c3 "")))) = true).
    rewrite remove_comma_digits; simpl; now rewrite H1, H2, H3.
Qed.

(** What the group of the amount patterns matches, with its commas taken
    out, is a decimal literal. *)
Lemma lang_number_body (t : string) :
  lang number_body t -> decimal (remove_char "," t).
Proof.
  unfold number_body, opt. intros H.
  inversion H as [| |? ? w s2 Lw L2| | | | |]; subst.
  inversion L2 as [| |? ? th fr Lth Lfr| | | | |]; subst.
  apply lang_plus_digit in Lw. destruct Lw as [Wne Wd].
  apply lang_thousands in Lth.
  rewrite !remove_char_app, (remove_comma_digits w Wd).
  exists (w ++ remove_char "," th). split.
  - split.
    + destruct w; [congruence | discriminate].
    + now rewrite all_digits_app, Wd, Lth.
  - inversion Lfr as [| | |? ? ? Lp|? ? ? Le| | |]; subst.
    + right.
      inversion Lp as [| |? ? sc f Lc Lf| | | | |]; subst.
      inversion Lc as [? c Hc| | | | | | |]; subst.
      apply Ascii.eqb_eq in Hc. subst c.
      apply lang_plus_digit in Lf. exists f. split; [exact Lf|].
      destruct Lf as [_ Fd].
      rewrite remove_char_app, (remove_comma_digits f Fd).
      now rewrite append_assoc.
    + left. inversion Le; subst. simpl. now rewrite !append_nil_r.
Qed.

Lemma amount_patterns_group (pattern : regex) :
  In pattern amount_patterns ->
  sets_group pattern = true /\ groups pattern = [number_body].
Proof.
  simpl. intros [<-|[<-|[<-|[]]]]; split; reflexivity.
Qed.

Section WithFloatParser.

Variable py_float : string -> option float.

Lemma first_amount_spec (patterns : list regex) (query : string) :
  (forall pattern, In pattern patterns ->
     sets_group pattern = true /\ groups pattern = [number_body]) ->
  match first_amount py_float patterns query with
  | Some x =>
      exists text, decimal text /\ py_float text = Some x
  | None =>
      forall pattern, In pattern patterns ->
        search pattern query = None
        \/ exists text, decimal text /\ py_float text = None
  end.
Proof.
  induction patterns as [|pattern rest IH]; intros Hp; cbn [first_amount].
  - intros pattern [].
  - assert (Hrest : forall p, In p rest ->
              sets_group p = true /\ groups p = [number_body])
      by (intros p Hin; apply Hp; now right).
    specialize (IH Hrest).
    destruct (search pattern query) as [m|] eqn:E.
    + apply search_match in E. destruct E as (_ & _ & G).
      destruct (Hp pattern (or_introl eq_refl)) as [Hs Hg].
      destruct (G Hs) as (t & body & -> & Hb & L).
      rewrite Hg in Hb. destruct Hb as [<-|[]].
      apply lang_number_body in L. cbv zeta.
      destruct (py_float (remove_char "," t)) as [x|] eqn:F.
      * exists (remove_char "," t). auto.
      * destruct (first_amount py_float rest query) as [x|].
        -- exact IH.
        -- intros p [<-|Hin]; [|now apply IH].
           right. exists (remove_char "," t). auto.
    + destruct (first_amount py_float rest query) as [x|].
      * exact IH.
      * intros p [<-|Hin]; [now left | now apply IH].
Qed.

(** X17.  The text [_extract_amount] hands to [float] is always a decimal
    literal: one or more digits, with the commas of the query taken out,
    then possibly a point and one or more digits; never an empty string, a
    sign or an exponent.  So with a [float] that reads every such literal,
    the [ValueError] branch is dead: an amount comes back exactly when one
    of the three patterns is found in the query. *)
Theorem extract_amount_decimal (query : string) :
  (forall x,
     _extract_amount py_float query = Some x ->
     exists text, decimal text /\ py_float text = Some x)
  /\ ((forall text, decimal text -> py_float text <> None) ->
      (_extract_amount py_float query = None
       <-> forall pattern, In pattern amount_patterns ->
                           search pattern query = None)).
Proof.
  unfold _extract_amount.
  pose proof (first_amount_spec amount_patterns query
                amount_patterns_group) as H.
  split.
  - intros x E. now rewrite E in H.
  - intros Hfloat. split.
    + intros E. rewrite E in H. intros pattern Hin.
      destruct (H pattern Hin) as [Hn|(text & Hd & Hf)]; [exact Hn|].
      now apply Hfloat in Hd.
    + intros Hn. clear H. revert Hn.
      generalize amount_patterns as patterns.
      induction patterns as [|p rest IH]; intros Hn; cbn [first_amount].
      * reflexivity.
      * rewrite (Hn p (or_introl eq_refl)). apply IH.
        intros q Hq. apply Hn. now right.
Qed.

End WithFloatParser.

End AmountFacts.

(** ** More on chunking *)

Module ScraperMoreFacts.
Import PyStr PyStrFacts Scraper ScraperFacts.

Lemma len_slice (s : string) (a b : Z) :
  len (slice s a b) <= Z.max 0 (clamp (len s) b - clamp (len s) a)
  /\ len (slice s a b) <= len s.
Proof.
  unfold slice, len. cbv zeta. rewrite length_take, length_drop. lia.
Qed.

(** A window of [size] characters holds at most [size] of them, wherever it
    starts, also before the string. *)
Lemma len_window (s : string) (start size : Z) :
  0 <= size -> len (slice s start (start + size)) <= size.
Proof.
  intros Hsize.
  destruct (len_slice s start (start + size)) as [H _].
  unfold clamp in H.
  assert (0 <= len s) by (unfold len; lia). revert H.
  destruct (Z.ltb_spec start 0), (Z.ltb_spec (start + size) 0); lia.
Qed.

Lemma rstrip_keeps_head (c : ascii) (s : string) :
  isspace c = false -> rstrip (String c s) = String c (rstrip s).
Proof.
  intros Hc. cbn [rstrip]. destruct (rstrip s); [now rewrite Hc | reflexivity].
Qed.

Lemma rstrip_cons (c : ascii) (s : string) :
  rstrip (String c s)
  = match rstrip s with
    | EmptyString => if isspace c then EmptyString else String c EmptyString
    | String d r => String c (String d r)
    end.
Proof. reflexivity. Qed.

Lemma rstrip_idempotent (s : string) : rstrip (rstrip s) = rstrip s.
Proof.
  induction s as [|c s IH]; [reflexivity|]. rewrite rstrip_cons.
  destruct (rstrip s) as [|d r] eqn:E.
  - destruct (isspace c) eqn:Hc; [reflexivity|].
    rewrite rstrip_cons. cbn [rstrip]. now rewrite Hc.
  - rewrite rstrip_cons, IH. reflexivity.
Qed.

Lemma lstrip_head (s : string) :
  match lstrip s with
  | EmptyString => True
  | String c _ => isspace c = false
  end.
Proof.
  induction s as [|c s IH]; simpl; [exact I|].
  destruct (isspace c) eqn:Hc; [exact IH | exact Hc].
Qed.

Lemma length_lstrip (s : string) :
  (String.length (lstrip s) <= String.length s)%nat.
Proof.
  induction s as [|c s IH]; simpl; [lia|].
  destruct (isspace c); simpl; lia.
Qed.

Lemma length_rstrip (s : string) :
  (String.length (rstrip s) <= String.length s)%nat.
Proof.
  induction s as [|c s IH]; cbn [rstrip]; [simpl; lia|].
  destruct (rstrip s); [destruct (isspace c)|]; simpl in *; lia.
Qed.

(** [strip] leaves no white space at either end and never lengthens. *)
Lemma strip_idempotent (s : string) : strip (strip s) = strip s.
Proof.
  unfold strip. pose proof (lstrip_head s) as H.
  destruct (lstrip s) as [|c t]; [reflexivity|].
  rewrite (rstrip_keeps_head c t H). cbn [lstrip]. rewrite H.
  rewrite (rstrip_keeps_head c (rstrip t) H). now rewrite rstrip_idempotent.
Qed.

Lemma len_strip (s : string) : len (strip s) <= len s.
Proof.
  unfold strip, len.
  pose proof (length_rstrip (lstrip s)). pose proof (length_lstrip s). lia.
Qed.

Section AnyOverlap.
Variable content : string.
Variables chunk_size overlap : Z.
Hypothesis size_nonneg : 0 <= chunk_size.

(** A window never reaches past [start + chunk_size], and its chunk holds
    at most [chunk_size] characters. *)
Lemma chunk_step_bounds (start : Z) :
  snd (chunk_step content chunk_size start) <= start + chunk_size
  /\ len (fst (chunk_step content chunk_size start)) <= chunk_size.
Proof.
  unfold chunk_step. cbv zeta.
  pose proof (len_window content start chunk_size size_nonneg) as Hw.
  set (chunk := slice content start (start + chunk_size)) in *.
  destruct (start + chunk_size <? len content); [|cbn [fst snd]; lia].
  pose proof (rfind_bound chunk "." ltac:(discriminate)).
  pose proof (rfind_bound chunk newline ltac:(discriminate)).
  set (bp := Z.max (rfind chunk ".") (rfind chunk newline)) in *.
  destruct (chunk_size <? 2 * bp); cbn [fst snd]; [|lia].
  split; [lia|].
  destruct (len_slice chunk 0 (bp + 1)) as [_ H']. unfold slice_to. lia.
Qed.

Definition well_cut (chunk : string) : Prop :=
  len chunk <= chunk_size /\ strip chunk = chunk.

Lemma chunk_loop_well_cut (fuel : nat) :
  forall (start : Z) (acc chunks : list string),
    chunk_loop fuel content chunk_size overlap start acc = Some chunks ->
    Forall well_cut acc -> Forall well_cut chunks.
Proof.
  induction fuel as [|fuel IH]; intros start acc chunks; cbn [chunk_loop];
    [discriminate|].
  destruct (start <? len content).
  - pose proof (chunk_step_bounds start) as [_ Hl].
    destruct (chunk_step content chunk_size start) as [chunk end_].
    cbn [fst] in Hl. intros H Hacc. apply (IH _ _ _ H).
    apply Forall_app. split; [exact Hacc|].
    constructor; [|constructor]. split.
    + pose proof (len_strip chunk). lia.
    + apply strip_idempotent.
  - intros H Hacc. now injection H as <-.
Qed.

(** Once the window start is at or before 0 with [overlap] at least
    [chunk_size], it stays there. *)
Lemma chunk_loop_stuck (fuel : nat) :
  chunk_size <= overlap -> 0 < len content ->
  forall (start : Z) (acc : list string),
    start <= 0 ->
    chunk_loop fuel content chunk_size overlap start acc = None.
Proof.
  intros Ho Hlen. induction fuel as [|fuel IH]; intros start acc Hs;
    cbn [chunk_loop]; [reflexivity|].
  destruct (Z.ltb_spec start (len content)); [|lia].
  pose proof (chunk_step_bounds start) as [He _].
  destruct (chunk_step content chunk_size start) as [chunk end_].
  cbn [snd] in He. apply IH. lia.
Qed.

Lemma chunk_windows_length (fuel : nat) :
  0 <= overlap -> 2 * overlap < chunk_size ->
  forall (start : Z) (ws : list (Z * Z)),
    0 <= start ->
    chunk_windows fuel content chunk_size overlap start = Some ws ->
    Z.of_nat (List.length ws) <= Z.max 0 (len content - start).
Proof.
  intros Ho Hhalf.
  induction fuel as [|fuel IH]; intros start ws Hs; cbn [chunk_windows];
    [discriminate|].
  destruct (Z.ltb_spec start (len content)) as [Hlt|Hge].
  - pose proof (chunk_step_advances content chunk_size overlap size_nonneg
                  Hhalf start) as Hadv.
    set (end_ := snd (chunk_step content chunk_size start)) in *.
    destruct (chunk_windows fuel content chunk_size overlap (end_ - overlap))
      as [ws'|] eqn:E; [|discriminate].
    cbn [option_map]. intros H. injection H as <-.
    apply IH in E; [|lia]. cbn [List.length]. lia.
  - intros H. injection H as <-. simpl. lia.
Qed.

End AnyOverlap.

(** X19.  For content longer than [chunk_size], whatever the overlap, every
    chunk [chunk_content] returns holds at most [chunk_size] characters and
    has no white space at either end.  With [0 <= overlap] and [overlap]
    less than half of [chunk_size] there are at least two chunks and at
    most as many as the content has characters. *)
Theorem chunk_content_chunks (content : string) (chunk_size overlap : Z) :
  0 <= chunk_size -> chunk_size < len content ->
  (forall fuel chunks,
     chunk_content fuel content chunk_size overlap = Some chunks ->
     Forall (fun chunk => len chunk <= chunk_size /\ strip chunk = chunk)
       chunks)
  /\ (0 <= overlap -> 2 * overlap < chunk_size ->
      exists chunks,
        (forall fuel, (String.length content < fuel)%nat ->
           chunk_content fuel content chunk_size overlap = Some chunks)
        /\ 2 <= Z.of_nat (List.length chunks) <= len content).
Proof.
  intros Hs Hlong. split.
  - intros fuel chunks. unfold chunk_content.
    destruct (Z.leb_spec (len content) chunk_size) as [Hle|_]; [lia|].
    intros H.
    apply (chunk_loop_well_cut content chunk_size overlap Hs _ _ _ _ H).
    constructor.
  - intros Ho Hhalf.
    destruct (chunk_windows_total content chunk_size overlap Hs Hhalf
                (String.length content) 0) as [ws Hws];
      [unfold len; lia|].
    exists (map (stripped content) ws). split.
    + intros fuel Hf. unfold chunk_content.
      destruct (Z.leb_spec (len content) chunk_size); [lia|].
      rewrite (chunk_loop_windows content chunk_size overlap Hs Hhalf)
        by lia.
      now rewrite (Hws fuel Hf).
    + rewrite length_map.
      pose proof (Hws (S (S (String.length content))) ltac:(lia)) as H.
      pose proof (chunk_windows_length content chunk_size overlap Hs _ Ho
                    Hhalf 0 ws ltac:(lia) H) as Hmax.
      split; [|lia].
      cbn [chunk_windows] in H.
      destruct (Z.ltb_spec 0 (len content)); [|lia].
      pose proof (chunk_step_bounds content chunk_size Hs 0) as [He _].
      set (end_ := snd (chunk_step content chunk_size 0)) in *.
      destruct (Z.ltb_spec (end_ - overlap) (len content)); [|lia].
      destruct (chunk_windows (String.length content) content chunk_size
                  overlap _) as [ws'|]; [|discriminate].
      cbn [option_map] in H. injection H as <-. cbn [List.length]. lia.
Qed.

(** X20.  With an overlap that is not less than [chunk_size], content longer
    than [chunk_size] is never cut: the window start does not get past 0,
    and the loop goes on for ever, adding chunks. *)
Theorem chunk_content_diverges (content : string) (chunk_size overlap : Z) :
  0 <= chunk_size -> chunk_size <= overlap -> chunk_size < len content ->
  forall fuel, chunk_content fuel content chunk_size overlap = None.
Proof.
  intros Hs Ho Hlong fuel. unfold chunk_content.
  destruct (Z.leb_spec (len content) chunk_size); [lia|].
  apply (chunk_loop_stuck content chunk_size overlap Hs); lia.
Qed.

End ScraperMoreFacts.

(** ** Splitting and stripping *)

Module PyTextFacts.
Import PyStr PyStrFacts PyText ScraperMoreFacts.

Lemma split_first_no_sep (sep : ascii) (s : string) :
  has_char sep (fst (split_first sep s)) = false
  /\ Forall (fun piece => has_char sep piece = false)
       (snd (split_first sep s)).
Proof.
  induction s as [|c s [IH1 IH2]]; cbn [split_first].
  - split; [reflexivity | constructor].
  - destruct (split_first sep s) as [piece pieces]. cbn [fst snd] in *.
    destruct (Ascii.eqb c sep) eqn:E; cbn [fst snd].
    + split; [reflexivity | now constructor].
    + split; [|exact IH2]. cbn [has_char]. now rewrite E.
Qed.

(** No piece of [s.split(sep)] holds the separator. *)
Lemma split_no_sep (sep : ascii) (s piece : string) :
  In piece (split sep s) -> has_char sep piece = false.
Proof.
  unfold split. pose proof (split_first_no_sep sep s) as [H1 H2].
  destruct (split_first sep s) as [p ps]. cbn [fst snd] in *.
  intros [<-|Hin]; [exact H1|].
  rewrite Forall_forall in H2. now apply H2.
Qed.

Lemma has_char_lstrip (c : ascii) (s : string) :
  has_char c s = false -> has_char c (lstrip s) = false.
Proof.
  induction s as [|d s IH]; cbn [lstrip has_char]; [reflexivity|].
  intros H. apply orb_false_iff in H. destruct H as [Hd Hs].
  destruct (isspace d); [now apply IH|].
  cbn [has_char]. now rewrite Hd, Hs.
Qed.

Lemma has_char_rstrip (c : ascii) (s : string) :
  has_char c s = false -> has_char c (rstrip s) = false.
Proof.
  induction s as [|d s IH]; [reflexivity|]. rewrite rstrip_cons.
  cbn [has_char]. intros H. apply orb_false_iff in H. destruct H as [Hd Hs].
  specialize (IH Hs). destruct (rstrip s) as [|e r].
  - destruct (isspace d); [reflexivity|]. cbn [has_char]. now rewrite Hd.
  - cbn [has_char] in *. now rewrite Hd, IH.
Qed.

Lemma has_char_strip (c : ascii) (s : string) :
  has_char c s = false -> has_char c (strip s) = false.
Proof.
  intros H. unfold strip. now apply has_char_rstrip, has_char_lstrip.
Qed.

Lemma has_char_lstrip_chars (c : ascii) (chars s : string) :
  has_char c s = false -> has_char c (lstrip_chars chars s) = false.
Proof.
  induction s as [|d s IH]; cbn [lstrip_chars has_char]; [reflexivity|].
  intros H. apply orb_false_iff in H. destruct H as [Hd Hs].
  destruct (has_char d chars); [now apply IH|].
  cbn [has_char]. now rewrite Hd, Hs.
Qed.

Lemma lstrip_chars_head (chars s : string) :
  match lstrip_chars chars s with
  | EmptyString => True
  | String c _ => has_char c chars = false
  end.
Proof.
  induction s as [|c s IH]; cbn [lstrip_chars]; [exact I|].
  destruct (has_char c chars) eqn:Hc; [exact IH | exact Hc].
Qed.

Lemma lstrip_chars_suffix (chars s : string) :
  exists dropped, s = dropped ++ lstrip_chars chars s.
Proof.
  induction s as [|c s [dropped IH]]; cbn [lstrip_chars].
  - now exists "".
  - destruct (has_char c chars).
    + exists (String c dropped). simpl. now rewrite <- IH.
    + now exists "".
Qed.

(** A string with no white space at its end has none at the end of any of
    its suffixes. *)
Lemma rstrip_suffix (a t : string) : rstrip (a ++ t) = a ++ t -> rstrip t = t.
Proof.
  induction a as [|c a IH]; [auto|]. cbn [append]. rewrite rstrip_cons.
  intros H. apply IH. destruct (rstrip (a ++ t)) as [|d r].
  - destruct (isspace c); [discriminate|]. now injection H.
  - now injection H.
Qed.

Lemma rstrip_strip (s : string) : rstrip (strip s) = strip s.
Proof. unfold strip. apply rstrip_idempotent. Qed.

Lemma truthy_iff (s : string) : truthy s = true <-> s <> "".
Proof.
  unfold truthy. destruct (String.eqb_spec s ""); simpl; split; congruence.
Qed.

Lemma existsb_eqb (key : string) (l : list string) :
  existsb (String.eqb key) l = true <-> In key l.
Proof.
  rewrite existsb_exists. split.
  - intros (x & Hin & E). apply String.eqb_eq in E. now subst.
  - intros Hin. exists key. split; [exact Hin | apply String.eqb_refl].
Qed.

End PyTextFacts.

(** ** API keys *)

Module SecurityFacts.
Import PyStr PyStrFacts PyText PyTextFacts ScraperMoreFacts Security.

(** The keys the check compares with: the pieces of the setting between
    commas, stripped, that are not empty. *)
Lemma valid_keys_spec (api_keys_str key : string) :
  In key (map strip (api_keys api_keys_str))
  <-> key <> ""
      /\ exists piece, In piece (split "," api_keys_str) /\ strip piece = key.
Proof.
  unfold api_keys. rewrite map_map. rewrite in_map_iff. split.
  - intros (piece & E & Hin). apply filter_In in Hin.
    destruct Hin as [Hin Ht]. rewrite strip_idempotent in E. subst key.
    apply truthy_iff in Ht. split; [exact Ht|]. now exists piece.
  - intros (Hne & piece & Hin & E). exists piece.
    rewrite strip_idempotent. split; [exact E|].
    apply filter_In. split; [exact Hin|]. apply truthy_iff. now rewrite E.
Qed.

(** X22.  A request passes the key check exactly when its header is, to the
    letter, one of the pieces of the [API_KEYS] setting between commas with
    the white space at its ends taken off, and is not empty.  So an accepted
    key never has white space at an end nor a comma; a missing or empty
    header is answered 401 and any other rejected one 403; and the admin
    check accepts exactly the same keys. *)
Theorem verify_api_key_accepts (api_keys_str : string)
    (api_key : option string) :
  (forall key,
     verify_api_key api_keys_str api_key = inr key
     <-> api_key = Some key /\ key <> ""
         /\ exists piece,
              In piece (split "," api_keys_str) /\ strip piece = key)
  /\ (forall key,
        verify_api_key api_keys_str api_key = inr key ->
        strip key = key /\ has_char "," key = false)
  /\ (verify_api_key api_keys_str api_key = inl HTTP_401_UNAUTHORIZED
      <-> api_key = None \/ api_key = Some "")
  /\ (forall e,
        verify_api_key api_keys_str api_key = inl e ->
        e = HTTP_401_UNAUTHORIZED \/ e = HTTP_403_FORBIDDEN)
  /\ verify_admin_api_key api_keys_str api_key
     = verify_api_key api_keys_str api_key.
Proof.
  assert (Hacc : forall key,
            verify_api_key api_keys_str api_key = inr key
            <-> api_key = Some key /\ key <> ""
                /\ exists piece,
                     In piece (split "," api_keys_str)
                     /\ strip piece = key).
  { intros key. unfold verify_api_key.
    destruct api_key as [k|]; [|split; [discriminate | intros [E _]];
                                 discriminate].
    destruct (truthy k) eqn:Ht; cbn [negb].
    - apply truthy_iff in Ht. cbv zeta.
      destruct (existsb (String.eqb k) (map strip (api_keys api_keys_str)))
        eqn:Ex; cbn [negb].
      + apply existsb_eqb, valid_keys_spec in Ex. split.
        * intros E. injection E as <-. tauto.
        * intros (E & _). now injection E as <-.
      + split; [discriminate|]. intros (E & Hne & Hp). injection E as <-.
        assert (Hin : In k (map strip (api_keys api_keys_str)))
          by (apply valid_keys_spec; tauto).
        apply existsb_eqb in Hin. congruence.
    - split; [discriminate|]. intros (E & Hne & _). injection E as <-.
      apply truthy_iff in Hne. congruence. }
  split; [exact Hacc|]. split; [|split; [|split]].
  - intros key H. apply Hacc in H. destruct H as (_ & _ & piece & Hin & <-).
    split; [apply strip_idempotent|].
    apply has_char_strip. now apply (split_no_sep "," api_keys_str).
  - unfold verify_api_key. destruct api_key as [k|]; [|tauto].
    destruct (truthy k) eqn:Ht; cbn [negb].
    + cbv zeta.
      destruct (negb (existsb (String.eqb k)
                        (map strip (api_keys api_keys_str)))).
      * split; [discriminate|]. intros [E|E]; [discriminate|].
        injection E as ->. discriminate.
      * split; [discriminate|]. intros [E|E]; [discriminate|].
        injection E as ->. discriminate.
    + split; [|reflexivity]. intros _. right. f_equal.
      unfold truthy in Ht. apply negb_false_iff in Ht.
      now apply String.eqb_eq in Ht.
  - intros [|]; auto.
  - unfold verify_admin_api_key.
    now destruct (verify_api_key api_keys_str api_key).
Qed.

End SecurityFacts.

(** ** The mock pools and the classifier *)

Module KaminoFacts.
Import PyStr PyStrFacts Re QueryClassifier ExtractionFacts Kamino.

Lemma spelling_apr (now : Z) (pool : string * string) (x : string) :
  In pool pools -> In x (spellings pool) ->
  (x = fst pool ++ snd pool ->
   _mock_get_pool_apr now (normalised x) = None)
  /\ (x <> fst pool ++ snd pool ->
      normalised x = fst pool ++ "-" ++ snd pool
      /\ exists data,
           _mock_get_pool_apr now (normalised x) = Some data
           /\ Kamino.pool_id data = normalised x).
Proof.
  intros Hp Hx. simpl in Hp.
  destruct Hp as [<-|[<-|[<-|[<-|[]]]]]; simpl in Hx;
    destruct Hx as [<-|[<-|[<-|[]]]];
    (split;
     [intros Hw; try discriminate Hw; reflexivity
     |intros Hw;
      first [exfalso; apply Hw; reflexivity
            |split; [reflexivity|]; eexists; split; reflexivity]]).
Qed.

(** X24.  A pool the classifier reads off a query is known to the mock
    data exactly when the query writes it with a hyphen or a space: the
    data comes back under the hyphenated id.  Written in one word, the pool
    is recognised and looked up under an id the mock data does not have. *)
Theorem classified_pool_apr (now : Z) (query id : string) :
  _extract_pool_id query = Some id ->
  exists pool x,
    In pool pools /\ In x (spellings pool) /\ occurs x query
    /\ id = normalised x
    /\ (x = fst pool ++ snd pool -> _mock_get_pool_apr now id = None)
    /\ (x <> fst pool ++ snd pool ->
        id = fst pool ++ "-" ++ snd pool
        /\ exists data,
             _mock_get_pool_apr now id = Some data
             /\ Kamino.pool_id data = id).
Proof.
  unfold _extract_pool_id.
  change pool_patterns
    with (map (fun p => pool_pattern (fst p) (snd p)) pools).
  pose proof (first_pool_spec pools query) as H.
  destruct (first_pool (map (fun p => pool_pattern (fst p) (snd p)) pools)
              query) as [id'|]; [|discriminate].
  intros E. injection E as ->.
  destruct H as (earlier & pool & later & x & E & Hx & Ho & -> & _).
  assert (Hin : In pool pools)
    by (rewrite E; apply in_or_app; right; now left).
  exists pool, x. split; [exact Hin|]. split; [exact Hx|].
  split; [exact Ho|]. split; [reflexivity|].
  now apply spelling_apr.
Qed.

End KaminoFacts.

(** ** Requests to the model and follow-up questions *)

Module LLMFacts.
Import PyStr PyStrFacts PyText PyTextFacts ScraperMoreFacts LLM.

(** X25.  Whatever the model name, the request for an answer sets exactly
    one token limit: [max_tokens], [max_completion_tokens], or the one in
    [extra_body].  The limit is 4000 for the names that hold "o1-", "o3-" or
    "gpt-5" and 1500 for the others, and a request with the limit 4000 never
    carries a temperature nor [max_tokens].  The temperature is sent exactly
    when the name holds none of "o1-", "o3-", "gpt-5" and "search-preview".
    The system prompt, when not empty, goes out once: as a system message
    before the user message, or for "o1-" and "o3-" at the head of the
    user message. *)
Theorem answer_request_shape {T : Type} (model_ system_prompt query : string)
    (context : option string) (dapp : string) (temperature_ : T) :
  let r := answer_request model_ system_prompt query context dapp
             temperature_ in
  let n := answer_max_tokens model_ in
  let prompt := _build_user_prompt query context dapp in
  ((max_tokens r, max_completion_tokens r, extra_body r)
   = (Some n, None, None)
   \/ (max_tokens r, max_completion_tokens r, extra_body r)
      = (None, Some n, None)
   \/ (max_tokens r, max_completion_tokens r, extra_body r)
      = (None, None, Some n))
  /\ (n = 4000 \/ n = 1500)
  /\ (n = 4000 -> temperature r = None /\ max_tokens r = None)
  /\ (temperature r = Some temperature_
      <-> existsb (fun x => contains x model_)
            ["o1-"; "o3-"; "gpt-5"; "search-preview"] = false)
  /\ (temperature r = None \/ temperature r = Some temperature_)
  /\ (system_prompt <> "" ->
      messages r
      = if o_series model_
        then [{| role := "user";
                 content := system_prompt ++ blank_line ++ prompt |}]
        else [{| role := "system"; content := system_prompt |};
              {| role := "user"; content := prompt |}]).
Proof.
  cbv zeta. unfold answer_request, completion_params, answer_max_tokens,
    o_series. cbn [existsb].
  destruct (contains "o1-" model_), (contains "o3-" model_),
    (contains "gpt-5" model_), (contains "search-preview" model_),
    (contains "gpt-4o" model_);
    cbn [orb andb negb max_tokens max_completion_tokens extra_body
         temperature messages];
    (split; [tauto|]); (split; [tauto|]);
    (split; [try (intros _; split; reflexivity);
             intros Hn; discriminate Hn|]);
    (split; [split; intros Hx; try reflexivity; discriminate Hx|]);
    (split; [tauto|]);
    intros Hs; apply truthy_iff in Hs; rewrite Hs; reflexivity.
Qed.

Lemma length_list_slice_to {A : Type} (l : list A) (n : Z) :
  0 <= n -> Z.of_nat (List.length (list_slice_to l n)) <= n.
Proof.
  intros Hn. unfold list_slice_to, clamp. rewrite length_firstn.
  destruct (Z.ltb_spec n 0); lia.
Qed.

Lemma list_slice_to_In {A : Type} (l : list A) (n : Z) (x : A) :
  In x (list_slice_to l n) -> In x l.
Proof. unfold list_slice_to. apply RAGFacts.firstn_In. Qed.

(** X23.  [generate_followup_questions] returns at most [count] questions
    when [count] is not negative.  Each is a line of the provider's answer
    that is not blank, stripped, without the digits, full stops, hyphens,
    closing brackets and spaces at its head: it does not start with one of
    those, has no white space at its end and no line break.  A line that is
    numbering only is kept, as the empty string. *)
Theorem followup_questions_shape (content_ : string) (count : Z) :
  (0 <= count ->
   Z.of_nat (List.length (generate_followup_questions content_ count))
   <= count)
  /\ (forall q,
        In q (generate_followup_questions content_ count) ->
        (exists line,
           In line (split "010" content_) /\ strip line <> ""
           /\ q = lstrip_chars numbering (strip line))
        /\ match q with
           | EmptyString => True
           | String c _ => has_char c numbering = false
           end
        /\ rstrip q = q /\ has_char "010" q = false)
  /\ (forall line,
        strip line <> "" -> lstrip_chars numbering (strip line) = "" ->
        has_char "010" line = false -> 1 <= count ->
        generate_followup_questions line count = [""]).
Proof.
  unfold generate_followup_questions. cbv zeta. split; [|split].
  - apply length_list_slice_to.
  - intros q Hq. apply list_slice_to_In in Hq. apply in_map_iff in Hq.
    destruct Hq as (line & <- & Hin). apply filter_In in Hin.
    destruct Hin as [Hin Ht]. apply truthy_iff in Ht.
    split; [now exists line|]. split; [apply lstrip_chars_head|]. split.
    + destruct (lstrip_chars_suffix numbering (strip line)) as [d Hd].
      apply (rstrip_suffix d). rewrite <- Hd. apply rstrip_strip.
    + apply has_char_lstrip_chars, has_char_strip.
      now apply (split_no_sep "010" content_).
  - intros line Hne Hnum Hnl Hc.
    assert (Hsplit : split "010" line = [line]).
    { clear -Hnl. unfold split.
      assert (H : split_first "010" line = (line, [])).
      { induction line as [|c s IH]; [reflexivity|].
        cbn [has_char] in Hnl. apply orb_false_iff in Hnl.
        destruct Hnl as [Hc Hs]. cbn [split_first].
        now rewrite (IH Hs), Hc. }
      now rewrite H. }
    rewrite Hsplit. cbn [filter]. apply truthy_iff in Hne. rewrite Hne.
    cbn [map]. rewrite Hnum. unfold list_slice_to, clamp.
    cbn [List.length]. destruct (Z.ltb_spec count 0); [lia|].
    replace (Z.to_nat (Z.min count (Z.of_nat 1))) with 1%nat by lia.
    reflexivity.
Qed.

End LLMFacts.

(** ** Examples *)

Module ScraperExamples.
Import PyStr Scraper ScraperFacts.

(** C6 as it was stated fails on short content with white space at an end:
    the chunk is the content, not the stripped content. *)
Lemma chunk_content_short_not_stripped :
  len " a" <= 1000
  /\ chunk_content 1 " a" 1000 200 = Some [" a"]
  /\ strip " a" = "a"
  /\ chunk_content 1 " a" 1000 200 <> Some [strip " a"].
Proof.
  split; [vm_compute; discriminate|].
  split; [reflexivity|]. split; [reflexivity|].
  vm_compute. discriminate.
Qed.

Lemma chunk_content_windows_witness :
  chunk_content 1 "abc" 1000 200 = Some ["abc"]
  /\ exists end_ rest,
       chunk_content 13 "aaaa. aaaaaa" 8 2
       = Some (map (fun w => strip (window_text "aaaa. aaaaaa" w))
                 ((0, end_) :: rest))
       /\ reassemble 2 (map (window_text "aaaa. aaaaaa") ((0, end_) :: rest))
          = "aaaa. aaaaaa".
Proof.
  destruct (chunk_content_windows "abc" 1000 200) as [Hshort _].
  split; [apply Hshort; vm_compute; discriminate|].
  destruct (chunk_content_windows "aaaa. aaaaaa" 8 2) as (_ & _ & Hlong).
  destruct Hlong as (end_ & rest & Hrun & _ & Hre);
    [reflexivity | lia | lia |].
  exists end_, rest. split; [|exact Hre].
  apply Hrun. simpl. lia.
Defined.

Lemma chunk_content_terminates_witness :
  0 <= 10 /\ 2 * 2 < 10
  /\ exists chunks, chunk_content 13 "aaaaaaaaaaaa" 10 2 = Some chunks.
Proof.
  split; [lia|]. split; [lia|].
  destruct (chunk_content_terminates "aaaaaaaaaaaa" 10 2
              ltac:(lia) ltac:(lia)) as (_ & _ & chunks & H).
  exists chunks. apply H. simpl. lia.
Defined.

(** Why [chunk_size] must not be negative: with [chunk_size = -1] and
    [overlap = -1] the window start stays at 0. *)
Lemma chunk_step_stuck :
  snd (chunk_step "ab" (-1) 0) - (-1) = 0.
Proof. reflexivity. Qed.

End ScraperExamples.

Module RAGExamples.
Import PyStr RAG RAGFacts Fixtures.

(** X11.  Whatever the documents, the context is the blocks and two
    characters between each two of them: it stays within [max_length], one
    marker and these separators. *)
Lemma build_context_length {json : Type} (documents : list (Retrieved json))
    (max_length : Z) :
  0 <= max_length ->
  len (build_context documents max_length)
  <= max_length + len "..."
     + 2 * Z.max 0
         (Z.of_nat (List.length (build_parts documents max_length 0 [])) - 1).
Proof.
  intros Hm. unfold build_context.
  pose proof (build_parts_total documents max_length 0 [] eq_refl Hm) as Ht.
  destruct documents as [|doc documents]; [change (len "...") with 3 in *;
                                            change (len "") with 0; lia|].
  destruct (build_parts (doc :: documents) max_length 0 []) as [|p parts]
    eqn:E.
  - change (len "...") with 3 in *. change (len (join _ [])) with 0. lia.
  - rewrite len_join by discriminate.
    change (len (Scraper.newline ++ Scraper.newline)) with 2. lia.
Qed.

(** C5 on the code.  An empty list gives the empty string.  Two documents
    whose blocks are 1215 characters long, with [max_length = 2000]: the
    first block fits, the second is cut to the 785 characters left and
    gets the marker, and the two characters that join them are counted
    nowhere; the context is 2005 characters long, above 2000 and one
    marker. *)
Lemma build_context_over_budget :
  build_context (json := string) [] 2000 = EmptyString
  /\ len (doc_text (doc5 1200)) = 1215
  /\ len (build_context [doc5 1200; doc5 1200] 2000) = 2005
  /\ 2000 + len "..." < len (build_context [doc5 1200; doc5 1200] 2000).
Proof. repeat split; vm_compute; reflexivity. Qed.

End RAGExamples.

Module CacheExamples.
Import PyStr Cache CacheFacts Fixtures.

Definition question : string := "how do i deposit?".

(** C1 as it was stated fails: the nearest entry of the scope is the old
    one, at distance 0, and it is older than the 30 seconds asked; the
    lookup is a hit all the same, on the recent entry. *)
Lemma lookup_hit_though_nearest_is_stale :
  select_nearest distance5 (encode5 question) "kamino" None
    [old_row; recent_row] = Some (old_row, 25 # 25)
  /\ updated_at old_row < 100 * second - 30 * second
  /\ snd (get_cached_response encode5 distance5 (100 * second) question
            [old_row; recent_row] "kamino" (95 # 100) (Some 30))
     = Some {| response_data := "recent answer"; _cached := true;
               _cache_similarity := 24 # 25 |}.
Proof. repeat split; vm_compute; reflexivity. Qed.

(** [max_age_seconds = 0] is not an age bound at all: [if max_age_seconds:]
    skips the filter, and an entry 100 seconds old is returned. *)
Lemma lookup_zero_max_age :
  snd (get_cached_response encode5 distance5 (100 * second) question
         [old_row] "kamino" (95 # 100) (Some 0))
  = Some {| response_data := "old answer"; _cached := true;
            _cache_similarity := 25 # 25 |}
  /\ snd (get_cached_response encode5 distance5 (100 * second) question
            [old_row] "kamino" (95 # 100) (Some 1))
     = None.
Proof. split; vm_compute; reflexivity. Qed.

Lemma lookup_hit_conditions_witness :
  exists entry e,
    In entry [old_row; recent_row] /\ dapp entry = "kamino"
    /\ query_embedding entry = Some e
    /\ (95 # 100 <= 1 - distance5 e (encode5 question))%Q
    /\ 100 * second - 30 * second <= updated_at entry.
Proof.
  destruct (lookup_hit_conditions encode5 distance5 (100 * second) question
              [old_row; recent_row] "kamino" (95 # 100) (Some 30)
              (fst (get_cached_response encode5 distance5 (100 * second)
                      question [old_row; recent_row] "kamino" (95 # 100)
                      (Some 30)))
              {| response_data := "recent answer"; _cached := true;
                 _cache_similarity := 24 # 25 |} eq_refl)
    as (entry & e & H1 & H2 & H3 & _ & H5 & H6 & H7 & _).
  exists entry, e. rewrite <- H5. repeat split; auto.
  apply (H7 30); [reflexivity | discriminate].
Defined.

Lemma scope_isolation_witness :
  dapp aave_allez = "aave"
  /\ select_nearest distance5 (encode5 question) "kamino" None
       [kamino_main; aave_allez] <> Some (aave_allez, 25 # 25).
Proof.
  split; [reflexivity|].
  destruct (scope_isolation encode5 distance5 0 question "kamino" (95 # 100)
              None 3 [kamino_main; aave_allez] []) as (_ & H & _).
  apply H; [right; left; reflexivity | discriminate].
Defined.








End CacheExamples.

Module ClassifierExamples.
Import PyStr QueryClassifier ClassifierFacts.

Lemma classify_type_priority_witness :
  query_type (classify (fun _ => None) "Is the yield risky?" None) = EARNINGS.
Proof.
  destruct (classify_type_priority (fun _ => None) "Is the yield risky?"
              None) as (_ & H & _).
  apply H; apply any_keyword_iff; reflexivity.
Defined.

End ClassifierExamples.

(** ** More examples *)

Module MoreExamples.
Import PyStr PyText Cache RAG Documents Scraper QueryClassifier Fixtures
       CacheExamples.

Definition recent_hit : CacheHit string :=
  {| response_data := "recent answer"; _cached := true;
     _cache_similarity := 24 # 25 |}.

Lemma lookup_hit_repeats_witness :
  exists db'' hit',
    get_cached_response encode5 distance5 (110 * second) question
      (fst (get_cached_response encode5 distance5 (100 * second) question
              [old_row; recent_row] "kamino" (95 # 100) (Some 30)))
      "kamino" (95 # 100) (Some 30) = (db'', Some hit')
    /\ (24 # 25 <= _cache_similarity hit')%Q.
Proof.
  apply (CacheMoreFacts.lookup_hit_repeats encode5 distance5 (100 * second)
           (110 * second) question [old_row; recent_row]
           (fst (get_cached_response encode5 distance5 (100 * second)
                   question [old_row; recent_row] "kamino" (95 # 100)
                   (Some 30)))
           "kamino" (95 # 100) (Some 30) recent_hit).
  - reflexivity.
  - intros n E Hn. injection E as <-. vm_compute. discriminate.
Defined.

Lemma store_is_scope_local_witness :
  "aave" <> "kamino"
  /\ snd (get_cached_response encode5 distance5 5 question
            (fst (fst (save_response encode5 dumps5 0 "6" Down question
                         "answer" [recent_row] "aave" (details5 None))))
            "kamino" (95 # 100) None)
     = snd (get_cached_response encode5 distance5 5 question [recent_row]
              "kamino" (95 # 100) None).
Proof.
  split; [discriminate|].
  apply (CacheMoreFacts.store_is_scope_local encode5 distance5 dumps5 0 5
           "6" Down question question "answer" [recent_row] "aave" "kamino"
           (details5 None) (95 # 100) None).
  discriminate.
Defined.

Lemma exact_cache_expiry_and_frame_witness :
  get_from_redis loads5 (24 * hour)
    (_cache_in_redis dumps5 0 (Up (fun _ => None)) "hi" "answer" 24) "hi"
  = None
  /\ _cache_in_redis dumps5 0 Down "hi" "answer" 24 = Down.
Proof.
  destruct (CacheMoreFacts.exact_cache_expiry_and_frame dumps5 loads5 0
              (24 * hour) (fun _ => None) "hi" "ho" "answer" "answer" 24
              eq_refl ltac:(reflexivity)) as (H1 & _ & H3 & _).
  split; [apply H1; vm_compute; discriminate | exact H3].
Defined.


Lemma invalidate_without_filter_witness :
  invalidate_cache 0 [kamino_allez; aave_allez; kamino_main] (Some "")
    (Some 0)
  = ([], 3).
Proof.
  apply (CacheMoreFacts.invalidate_without_filter 0
           [kamino_allez; aave_allez; kamino_main] (Some "") (Some 0)).
  - right. reflexivity.
  - right. reflexivity.
Defined.




Lemma build_context_length_witness :
  0 <= 2000
  /\ len (build_context [doc5 1200; doc5 1200] 2000) <= 2000 + 3 + 2 * 1.
Proof.
  split; [lia|].
  exact (RAGExamples.build_context_length [doc5 1200; doc5 1200] 2000
           ltac:(lia)).
Defined.

Lemma exact_cache_ignores_scope_witness :
  get_from_redis loads5 1
    (snd (fst (save_response encode5 dumps5 0 "6" (Up (fun _ => None))
                 question "answer" [] "aave" (details5 None)))) question
  = Some "answer".
Proof.
  apply (CacheFacts.exact_cache_ignores_scope encode5 dumps5 loads5 0 1 "6"
           (fun _ => None) question "answer" "answer" [] "aave"
           (details5 None)).
  - reflexivity.
  - discriminate.
  - reflexivity.
  - reflexivity.
Defined.

Lemma chunk_content_chunks_witness :
  0 <= 8 /\ 8 < len "aaaa. aaaaaa"
  /\ exists chunks,
       chunk_content 13 "aaaa. aaaaaa" 8 2 = Some chunks
       /\ 2 <= Z.of_nat (List.length chunks) <= 12.
Proof.
  split; [lia|]. split; [reflexivity|].
  destruct (ScraperMoreFacts.chunk_content_chunks "aaaa. aaaaaa" 8 2
              ltac:(lia) ltac:(reflexivity)) as [_ H].
  destruct (H ltac:(lia) ltac:(lia)) as (chunks & Hrun & Hlen).
  exists chunks. split; [apply Hrun; simpl; lia | exact Hlen].
Defined.

Lemma chunk_content_diverges_witness :
  0 <= 4 /\ 4 <= 4 /\ 4 < len "aaaa. aaaaaa"
  /\ chunk_content 1000 "aaaa. aaaaaa" 4 4 = None.
Proof.
  split; [lia|]. split; [lia|]. split; [reflexivity|].
  apply (ScraperMoreFacts.chunk_content_diverges "aaaa. aaaaaa" 4 4);
    [lia | lia | reflexivity].
Defined.

Lemma classified_pool_apr_witness :
  _extract_pool_id "deposit into allezusdc or main usdc" = Some "allezusdc"
  /\ Kamino._mock_get_pool_apr 0 "allezusdc" = None.
Proof.
  split; [reflexivity|].
  destruct (KaminoFacts.classified_pool_apr 0
              "deposit into allezusdc or main usdc" "allezusdc" eq_refl)
    as (pool & x & Hp & Hx & _ & Hid & Hone & _).
  apply Hone. simpl in Hp.
  destruct Hp as [<-|[<-|[<-|[<-|[]]]]]; simpl in Hx;
    destruct Hx as [<-|[<-|[<-|[]]]];
    first [reflexivity | discriminate Hid].
Defined.

End MoreExamples.
